(** * wslcd: resolution of Windows-style drive paths under /mnt/<drive>

    A shallow embedding of [src/cmd/wslcd/main.go] and the properties of its
    resolution algorithm.

    Conventions of the embedding:
    - a Go [string] is a sequence of bytes: Rocq's [string] (a list of
      8-bit [ascii]); [len] is the byte length, [<] the byte-wise
      lexicographic order ([String.ltb]);
    - a Go [rune] is a [Z]; the conversion [[]rune(s)] is UTF-8 decoding
      with Go's treatment of ill-formed input (each offending byte becomes
      U+FFFD), written out in [runes];
    - a Go [int] holding a score is a [Z]; every score is a count of positions
      of a slice, so it stays far below 2^63 and no wrap-around can occur;
      lengths and indices are [nat];
    - a Go [(T, error)] pair is a [result T]; the error is its message;
    - the file system and the Unicode tables of the Go library are
      parameters ([FileSystem], [GoLib]): every theorem holds for all of
      them, and the examples run on the small concrete ones of [Fixture]. *)

From Stdlib Require Import ZArith List Bool Lia Ascii String.
From Stdlib Require Import Sorting.Sorted Sorting.Permutation.
Import ListNotations.

Open Scope string_scope.
Open Scope Z_scope.

(* ================================================================= *)
(** ** Results *)

Inductive result (A : Type) : Type :=
| Ok (a : A)
| Err (msg : string).
Arguments Ok {A} a.
Arguments Err {A} msg.

(* ================================================================= *)
(** ** Bytes, slices and runes *)

Definition rune := Z.

Definition byteVal (c : ascii) : Z := Z.of_N (N_of_ascii c).
Definition byteOf (b : Z) : ascii := ascii_of_N (Z.to_N b).

(** [len(s)] *)
Definition len (s : string) : nat := String.length s.

(** [s[i:]] for [i <= len(s)] *)
Fixpoint sliceFrom (i : nat) (s : string) : string :=
  match i, s with
  | O, _ => s
  | S i', String _ t => sliceFrom i' t
  | S _, EmptyString => EmptyString
  end.

(** [s[:i]] for [i <= len(s)] *)
Fixpoint sliceTo (i : nat) (s : string) : string :=
  match i, s with
  | O, _ => EmptyString
  | S i', String c t => String c (sliceTo i' t)
  | S _, EmptyString => EmptyString
  end.

Definition RuneError : rune := 0xFFFD.

Definition inRange (lo hi b : Z) : bool := (lo <=? b) && (b <=? hi).

(** Table [first] of package utf8: for a leading byte at or above 0x80, the
    length of the sequence and the range accepted for its second byte. *)
Definition acceptFirst (b0 : Z) : option (nat * Z * Z) :=
  if inRange 0xC2 0xDF b0 then Some (2%nat, 0x80, 0xBF)
  else if b0 =? 0xE0 then Some (3%nat, 0xA0, 0xBF)
  else if inRange 0xE1 0xEC b0 then Some (3%nat, 0x80, 0xBF)
  else if b0 =? 0xED then Some (3%nat, 0x80, 0x9F)
  else if inRange 0xEE 0xEF b0 then Some (3%nat, 0x80, 0xBF)
  else if b0 =? 0xF0 then Some (4%nat, 0x90, 0xBF)
  else if inRange 0xF1 0xF3 b0 then Some (4%nat, 0x80, 0xBF)
  else if b0 =? 0xF4 then Some (4%nat, 0x80, 0x8F)
  else None.

Definition isCont (b : Z) : bool := inRange 0x80 0xBF b.

(** [[]rune(s)]: one rune per well-formed UTF-8 sequence, and U+FFFD for
    every byte that does not start one. *)
Fixpoint runes (s : string) : list rune :=
  match s with
  | EmptyString => []
  | String c0 t0 =>
    let b0 := byteVal c0 in
    if b0 <? 0x80 then b0 :: runes t0
    else
      match acceptFirst b0 with
      | None => RuneError :: runes t0
      | Some (sz, lo, hi) =>
        match t0 with
        | EmptyString => RuneError :: runes t0
        | String c1 t1 =>
          let b1 := byteVal c1 in
          if negb (inRange lo hi b1) then RuneError :: runes t0
          else if (sz <=? 2)%nat then
            Z.lor (Z.shiftl (Z.land b0 0x1F) 6) (Z.land b1 0x3F) :: runes t1
          else
            match t1 with
            | EmptyString => RuneError :: runes t0
            | String c2 t2 =>
              let b2 := byteVal c2 in
              if negb (isCont b2) then RuneError :: runes t0
              else if (sz <=? 3)%nat then
                Z.lor (Z.lor (Z.shiftl (Z.land b0 0x0F) 12)
                             (Z.shiftl (Z.land b1 0x3F) 6))
                      (Z.land b2 0x3F) :: runes t2
              else
                match t2 with
                | EmptyString => RuneError :: runes t0
                | String c3 t3 =>
                  let b3 := byteVal c3 in
                  if negb (isCont b3) then RuneError :: runes t0
                  else
                    Z.lor (Z.lor (Z.lor (Z.shiftl (Z.land b0 0x07) 18)
                                        (Z.shiftl (Z.land b1 0x3F) 12))
                                 (Z.shiftl (Z.land b2 0x3F) 6))
                          (Z.land b3 0x3F) :: runes t3
                end
            end
        end
      end
  end.

(** [string(r)] for a rune [r]: its UTF-8 encoding, that of U+FFFD when [r]
    is not a Unicode scalar value. *)
Definition encodeRune (r : rune) : string :=
  let bytes (l : list Z) := string_of_list_ascii (map byteOf l) in
  if (r <? 0) || (0x10FFFF <? r) || inRange 0xD800 0xDFFF r
  then bytes [0xEF; 0xBF; 0xBD]
  else if r <=? 0x7F then bytes [r]
  else if r <=? 0x7FF then
    bytes [Z.lor 0xC0 (Z.shiftr r 6); Z.lor 0x80 (Z.land r 0x3F)]
  else if r <=? 0xFFFF then
    bytes [Z.lor 0xE0 (Z.shiftr r 12);
           Z.lor 0x80 (Z.land (Z.shiftr r 6) 0x3F);
           Z.lor 0x80 (Z.land r 0x3F)]
  else
    bytes [Z.lor 0xF0 (Z.shiftr r 18);
           Z.lor 0x80 (Z.land (Z.shiftr r 12) 0x3F);
           Z.lor 0x80 (Z.land (Z.shiftr r 6) 0x3F);
           Z.lor 0x80 (Z.land r 0x3F)].

(* ================================================================= *)
(** ** Case Scorer *)

(** [caseScore] (main.go, lines 314-322). *)
Definition caseScore (input candidate : string) : Z :=
  let inRunes := runes input in
  let cRunes := runes candidate in
  let n := List.length inRunes in
  let n := if (List.length cRunes <? n)%nat then List.length cRunes else n in
  fold_left
    (fun score i => if nth i inRunes 0 =? nth i cRunes 0 then score + 1 else score)
    (seq 0 n) 0.

(** The positions the specification counts: the indices below the length
    of the shorter string, in characters, at which both strings carry the
    same character. *)
Definition matchingPositions (a b : string) : list nat :=
  filter (fun i => nth i (runes a) 0 =? nth i (runes b) 0)
         (seq 0 (Nat.min (List.length (runes a)) (List.length (runes b)))).

(* ================================================================= *)
(** ** The Go library and the operating system *)

(** What the program takes from packages [unicode] and [strings] and cannot
    be written out without the Unicode tables.  [foldClass r] is the least
    rune of the orbit of [r] under [unicode.SimpleFold]: two runes are
    equal under simple case folding exactly when their classes are equal. *)
Record GoLib : Type := {
  unicode_IsLetter : rune -> bool;
  unicode_ToLower : rune -> rune;
  foldClass : rune -> rune;
  strings_TrimSpace : string -> string
}.

(** [fs.DirEntry]: the name of an entry and whether the entry itself, not
    what a symbolic link points to, is a directory. *)
Record DirEntry : Type := { Name : string; IsDir : bool }.

(** [fs.FileInfo], as far as the program looks at it. *)
Record FileInfo : Type := { fiIsDir : bool }.

(** [os.ReadDir] and [os.Stat] ([os.Stat] follows symbolic links). *)
Record FileSystem : Type := {
  os_ReadDir : string -> result (list DirEntry);
  os_Stat : string -> result FileInfo
}.

(** Outcome of a call that may index a string out of range (a run-time
    panic) or whose loop is run with fuel. *)
Inductive run (A : Type) : Type :=
| Done (r : result A)
| Panic
| OutOfFuel.
Arguments Done {A} r.
Arguments Panic {A}.
Arguments OutOfFuel {A}.

(** [strings.Split(s, sep)] for a one-byte separator. *)
Fixpoint strings_Split (sep : ascii) (s : string) : list string :=
  match s with
  | EmptyString => [EmptyString]
  | String c t =>
    if Ascii.eqb c sep then EmptyString :: strings_Split sep t
    else match strings_Split sep t with
         | h :: r => String c h :: r
         | [] => [String c EmptyString]
         end
  end.

(** [strings.ReplaceAll(s, old, new)] for one-byte [old] and [new]. *)
Fixpoint strings_ReplaceAll (s : string) (old new : ascii) : string :=
  match s with
  | EmptyString => EmptyString
  | String c t =>
    String (if Ascii.eqb c old then new else c) (strings_ReplaceAll t old new)
  end.

Fixpoint byteIn (c : ascii) (cutset : string) : bool :=
  match cutset with
  | EmptyString => false
  | String d t => Ascii.eqb c d || byteIn c t
  end.

(** [strings.TrimLeft(s, cutset)] for a cutset of ASCII bytes. *)
Fixpoint strings_TrimLeft (s cutset : string) : string :=
  match s with
  | EmptyString => EmptyString
  | String c t => if byteIn c cutset then strings_TrimLeft t cutset else s
  end.

(** [strings.HasPrefix(s, prefix)] *)
Definition strings_HasPrefix (s pre : string) : bool := String.prefix pre s.

(** [strings.Join(elems, sep)] *)
Definition strings_Join (elems : list string) (sep : string) : string :=
  String.concat sep elems.

(** One path element of [filepath.Clean]: empty and [.] elements vanish,
    [..] removes the element before it, stays when the path is relative
    and nothing is left to remove, and vanishes at the root. *)
Definition cleanStep (rooted : bool) (out : list string) (c : string)
  : list string :=
  if (c =? "")%string then out
  else if (c =? ".")%string then out
  else if (c =? "..")%string then
    match rev out with
    | last :: _ =>
      if (last =? "..")%string then (out ++ [".."])%list else removelast out
    | [] => if rooted then out else (out ++ [".."])%list
    end
  else (out ++ [c])%list.

(** [filepath.Clean] on a system whose separator is [/]. *)
Definition filepath_Clean (path : string) : string :=
  match path with
  | EmptyString => "."
  | String c0 _ =>
    let rooted := Ascii.eqb c0 "/" in
    let out := fold_left (cleanStep rooted) (strings_Split "/" path) [] in
    let body := strings_Join out "/" in
    if rooted then "/" ++ body
    else if (body =? "")%string then "." else body
  end.

(** [filepath.Join]: the elements from the first non-empty one on, joined
    by [/] and cleaned; the empty string when there is none. *)
Fixpoint filepath_Join (elem : list string) : string :=
  match elem with
  | [] => ""
  | e :: r =>
    if (e =? "")%string then filepath_Join r
    else filepath_Clean (strings_Join elem "/")
  end.

(** [sort.SliceStable]: the stable sort by [less]; on the lists the
    program sorts (a strict weak order) every stable sort yields the same
    list, here by insertion. *)
Fixpoint insertStable {A : Type} (less : A -> A -> bool) (x : A) (l : list A)
  : list A :=
  match l with
  | [] => [x]
  | y :: l' => if less y x then y :: insertStable less x l' else x :: y :: l'
  end.

Fixpoint sort_SliceStable {A : Type} (less : A -> A -> bool) (l : list A)
  : list A :=
  match l with
  | [] => []
  | x :: l' => insertStable less x (sort_SliceStable less l')
  end.

(** The line feed of the hint message. *)
Definition nl : string := String "010"%char EmptyString.

(* ================================================================= *)
(** ** The program *)

Record candidate : Type := { fullPath : string; score : Z }.

(** The ordering function given to [sort.SliceStable] in
    [resolveWindowsPath] (lines 176-179). *)
Definition candLess (a b : candidate) : bool :=
  if negb (score a =? score b) then score b <? score a
  else String.ltb (fullPath a) (fullPath b).

(** [type pair] of [pickCaseInsensitiveEntry] and its ordering function
    (lines 260-263). *)
Record pair : Type := { pairName : string; pairScore : Z }.

Definition pairLess (a b : pair) : bool :=
  if negb (pairScore a =? pairScore b) then pairScore b <? pairScore a
  else String.ltb (pairName a) (pairName b).

(** [type cand] of [resolveWindowsPathCollapsed] and its ordering function
    (lines 225-229). *)
Record cand : Type := { candName : string; plen : nat; candScore : Z }.

Definition collapsedLess (a b : cand) : bool :=
  if negb (plen a =? plen b)%nat then (plen b <? plen a)%nat
  else if negb (candScore a =? candScore b) then candScore b <? candScore a
  else String.ltb (candName a) (candName b).

(** [type match] of [exploreCandidates]. *)
Record matchEntry : Type :=
  { matchName : string; matchScore : Z; matchPath : string }.

(** [argHead] (lines 237-241). *)
Definition argHead (s : string) : string :=
  if (len s =? 0)%nat then ""
  else if (16 <? len s)%nat then sliceTo 16 s ++ "..."
  else s.

(** [isWindowsPath] (lines 116-130). *)
Definition isWindowsPath (L : GoLib) (p : string) : bool :=
  match p with
  | String p0 (String p1 (String p2 _)) =>
    let r0 := byteVal p0 in
    if negb (unicode_IsLetter L r0) then false
    else if negb (Ascii.eqb p1 ":") then false
    else
      let sep := p2 in
      Ascii.eqb sep "\" || Ascii.eqb sep "/"
  | _ => false (* len(p) < 3 *)
  end.

(** [looksLikeWindowsDriveNoSlash] (lines 133-141). *)
Definition looksLikeWindowsDriveNoSlash (L : GoLib) (p : string) : bool :=
  match p with
  | String p0 (String p1 (String p2 _)) =>
    if negb (unicode_IsLetter L (byteVal p0)) || negb (Ascii.eqb p1 ":")
    then false
    else negb (Ascii.eqb p2 "\") && negb (Ascii.eqb p2 "/")
  | _ => false (* len(p) < 3 *)
  end.

(** The loop body of lines 151-156: [.] and empty parts are dropped, [..]
    removes the last segment when there is one. *)
Definition normStep (segs : list string) (s : string) : list string :=
  if (s =? "")%string then segs
  else if (s =? ".")%string then segs
  else if (s =? "..")%string then
    (if (0 <? List.length segs)%nat then removelast segs else segs)
  else (segs ++ [s])%list.

Definition normalizeSegments (rest : string) : list string :=
  fold_left normStep (strings_Split "/" rest) [].

Section Resolver.

Context (L : GoLib) (fs : FileSystem).

(** [strings.EqualFold]: both strings decode to equally many runes, which
    are pairwise equal under simple case folding. *)
Fixpoint foldEq (rs rt : list rune) : bool :=
  match rs, rt with
  | [], [] => true
  | a :: rs', b :: rt' => (foldClass L a =? foldClass L b) && foldEq rs' rt'
  | _, _ => false
  end.

Definition strings_EqualFold (s t : string) : bool :=
  foldEq (runes s) (runes t).

(** [strings.ToLower]: every rune mapped by [unicode.ToLower] and encoded
    again. *)
Definition strings_ToLower (s : string) : string :=
  String.concat "" (map (fun r => encodeRune (unicode_ToLower L r)) (runes s)).

(** [isDirFollowSymlink] (lines 307-312). *)
Definition isDirFollowSymlink (full : string) (de : DirEntry) : result bool :=
  if IsDir de then Ok true
  else
    match os_Stat fs full with
    | Err e => Err e
    | Ok info => Ok (fiIsDir info)
    end.

(** The loop of lines 249-254. *)
Definition pickMatches (want : string) (ents : list DirEntry) : list pair :=
  fold_left
    (fun matches e =>
       let n := Name e in
       if strings_EqualFold n want
       then (matches ++ [{| pairName := n; pairScore := caseScore want n |}])%list
       else matches)
    ents [].

(** [pickCaseInsensitiveEntry] (lines 243-265).  [matches[0]] is read from
    a list that is not empty; the default of [hd] is never used. *)
Definition pickCaseInsensitiveEntry (dir want : string) : result string :=
  match os_ReadDir fs dir with
  | Err e => Err e
  | Ok ents =>
    let wantLower := strings_ToLower want in
    let matches := pickMatches want ents in
    if (List.length matches =? 0)%nat then
      let candidate := filepath_Join [dir; wantLower] in
      match os_Stat fs candidate with
      | Ok st =>
        if fiIsDir st then Ok wantLower
        else Err ("no match for " ++ want ++ " in " ++ dir)
      | Err _ => Err ("no match for " ++ want ++ " in " ++ dir)
      end
    else
      let matches := sort_SliceStable pairLess matches in
      Ok (pairName (hd {| pairName := ""; pairScore := 0 |} matches))
  end.

(** The loop of lines 285-292 of [exploreCandidates]. *)
Definition exploreMatches (dir seg : string) (ents : list DirEntry)
  : list matchEntry :=
  fold_left
    (fun ms e =>
       let n := Name e in
       if negb (strings_EqualFold n seg) then ms
       else
         let full := filepath_Join [dir; n] in
         match isDirFollowSymlink full e with
         | Ok true =>
           (ms ++ [{| matchName := n; matchScore := caseScore seg n;
                      matchPath := full |}])%list
         | _ => ms
         end)
    ents [].

(** The closure [dfs] of [exploreCandidates] (lines 273-298).  The state
    [{dir, idx, score}] is carried as [dir], the segments [segs[idx:]] still
    to match and [score]; the slice [results] the closure appends to is
    passed in and returned; [Err] is a non-nil error. *)
Fixpoint dfs (rest : list string) (dir : string) (sc : Z)
  (results : list candidate) : result (list candidate) :=
  match rest with
  | [] =>
    match os_Stat fs dir with
    | Err _ => Ok results
    | Ok info =>
      if fiIsDir info
      then Ok (results ++ [{| fullPath := dir; score := sc |}])%list
      else Ok results
    end
  | seg :: rest' =>
    match os_ReadDir fs dir with
    | Err _ => Ok results
    | Ok ents =>
      let ms := exploreMatches dir seg ents in
      if (List.length ms =? 0)%nat then Ok results
      else
        (fix each (ms : list matchEntry) (results : list candidate)
           : result (list candidate) :=
           match ms with
           | [] => Ok results
           | m :: ms' =>
             match dfs rest' (matchPath m) (sc + matchScore m) results with
             | Err e => Err e
             | Ok results' => each ms' results'
             end
           end) ms results
    end
  end.

(** [exploreCandidates] (lines 269-305). *)
Definition exploreCandidates (root : string) (segs : list string)
  : result (list candidate) :=
  let results := [] in
  if (List.length segs =? 0)%nat then
    match os_Stat fs root with
    | Ok info =>
      if fiIsDir info
      then Ok (results ++ [{| fullPath := root; score := 0 |}])%list
      else Ok results
    | Err _ => Ok results
    end
  else
    match dfs segs root 0 results with
    | Err e => Err e
    | Ok results => Ok results
    end.

(** [resolveWindowsPath] (lines 144-181).  [win[0]] and [win[2:]] panic on
    a string of fewer than two bytes; [cands[0]] is read from a list that is
    not empty. *)
Definition resolveWindowsPath (win : string) : run string :=
  match win with
  | String w0 (String _ rest) =>
    let drive := unicode_ToLower L (byteVal w0) in
    let rest := strings_ReplaceAll rest "\" "/" in
    let segs := normalizeSegments rest in
    match pickCaseInsensitiveEntry "/mnt" (encodeRune drive) with
    | Err e =>
      Done (Err ("error: cannot locate /mnt/" ++ encodeRune drive
                 ++ " (drive mapping): " ++ e))
    | Ok mntRoot =>
      let root := filepath_Join ["/mnt"; mntRoot] in
      match exploreCandidates root segs with
      | Err e => Done (Err e)
      | Ok cands =>
        if (List.length cands =? 0)%nat then
          if (List.length segs =? 0)%nat then
            match os_Stat fs root with
            | Err e => Done (Err ("error: " ++ e))
            | Ok info =>
              if negb (fiIsDir info)
              then Done (Err ("error: not a directory: " ++ root))
              else Done (Ok root)
            end
          else
            Done (Err ("error: path does not exist (no case-insensitive match): "
                       ++ win))
        else
          let cands := sort_SliceStable candLess cands in
          Done (Ok (fullPath (hd {| fullPath := ""; score := 0 |} cands)))
      end
    end
  | _ => Panic
  end.

(** The loop of lines 210-219 of [resolveWindowsPathCollapsed]. *)
Definition collapsedMatches (curr tail : string) (ents : list DirEntry)
  : list cand :=
  fold_left
    (fun ms e =>
       let n := Name e in
       let ln := len n in
       if (len tail <? ln)%nat then ms
       else if negb (strings_EqualFold (sliceTo ln tail) n) then ms
       else
         let full := filepath_Join [curr; n] in
         match isDirFollowSymlink full e with
         | Ok true =>
           (ms ++ [{| candName := n; plen := ln;
                      candScore := caseScore (sliceTo ln tail) n |}])%list
         | _ => ms
         end)
    ents [].

(** What one pass through the body of the [for] loop (lines 196-233) does:
    it returns from the function or goes round with new [curr] and [tail]. *)
Inductive iteration : Type :=
| Return (r : result string)
| Continue (curr tail : string).

Definition cannotSegment (tail curr : string) : string :=
  "error: cannot segment '" ++ tail ++ "' at '" ++ argHead tail ++ "' under "
  ++ curr ++ nl
  ++ "Hint: quote the Windows path or use forward slashes (e.g., C:/...)".

Definition collapsedIter (curr tail : string) : iteration :=
  match tail with
  | EmptyString =>
    match os_Stat fs curr with
    | Err e => Return (Err ("error: " ++ e))
    | Ok info =>
      if negb (fiIsDir info)
      then Return (Err ("error: not a directory: " ++ curr))
      else Return (Ok curr)
    end
  | String t0 _ =>
    if Ascii.eqb t0 "/" || Ascii.eqb t0 "\"
    then Continue curr (strings_TrimLeft tail "\/")
    else
      match os_ReadDir fs curr with
      | Err e =>
        Return (Err ("error: cannot read directory " ++ curr ++ ": " ++ e))
      | Ok ents =>
        let ms := collapsedMatches curr tail ents in
        if (List.length ms =? 0)%nat
        then Return (Err (cannotSegment tail curr))
        else
          let ms := sort_SliceStable collapsedLess ms in
          let chosen := hd {| candName := ""; plen := 0; candScore := 0 |} ms in
          Continue (filepath_Join [curr; candName chosen])
                   (sliceFrom (plen chosen) tail)
      end
  end.

(** The [for] loop, run for at most [fuel] passes. *)
Fixpoint collapsedLoop (fuel : nat) (curr tail : string) : run string :=
  match fuel with
  | O => OutOfFuel
  | S fuel' =>
    match collapsedIter curr tail with
    | Return r => Done r
    | Continue curr' tail' => collapsedLoop fuel' curr' tail'
    end
  end.

(** [resolveWindowsPathCollapsed] (lines 184-235). *)
Definition resolveWindowsPathCollapsed (fuel : nat) (win : string)
  : run string :=
  match win with
  | String w0 (String _ tail) =>
    let drive := unicode_ToLower L (byteVal w0) in
    match pickCaseInsensitiveEntry "/mnt" (encodeRune drive) with
    | Err e =>
      Done (Err ("error: cannot locate /mnt/" ++ encodeRune drive
                 ++ " (drive mapping): " ++ e))
    | Ok mntRoot =>
      let curr := filepath_Join ["/mnt"; mntRoot] in
      let tail := strings_TrimLeft tail "\/" in
      collapsedLoop fuel curr tail
    end
  | _ => Panic
  end.

(** [resolveLinuxLike] (lines 95-113). *)
Definition resolveLinuxLike (arg cwd home : string) : result string :=
  let p := arg in
  if (p =? "~")%string then
    if (home =? "")%string then Err "error: HOME is not set"
    else Ok (filepath_Clean home)
  else if strings_HasPrefix p "~/" then
    if (home =? "")%string then Err "error: HOME is not set"
    else Ok (filepath_Clean (filepath_Join [home; sliceFrom 2 p]))
  else if negb (strings_HasPrefix p "/") then
    Ok (filepath_Clean (filepath_Join [cwd; p]))
  else Ok (filepath_Clean p).

(** The last part of [ResolveTarget] (lines 78-91). *)
Definition resolveLinuxTarget (arg cwd home : string) : result string :=
  match resolveLinuxLike arg cwd home with
  | Err e => Err e
  | Ok p =>
    match os_Stat fs p with
    | Err e => Err ("error: " ++ e)
    | Ok info =>
      if negb (fiIsDir info) then Err ("error: not a directory: " ++ p)
      else Ok p
    end
  end.

(** [ResolveTarget] (lines 63-92). *)
Definition ResolveTarget (fuel : nat) (arg cwd home : string) : run string :=
  let arg := strings_TrimSpace L arg in
  if (arg =? "")%string then Done (Err "error: missing target directory")
  else if isWindowsPath L arg then resolveWindowsPath arg
  else if looksLikeWindowsDriveNoSlash L arg
  then resolveWindowsPathCollapsed fuel arg
  else Done (resolveLinuxTarget arg cwd home).

End Resolver.

(* ================================================================= *)
(** ** The command *)

(** A double quote. *)
Definition dq : string := String "034"%char EmptyString.

(** The text [usage] writes to the standard error (lines 38-53); it holds
    no formatting verb. *)
Definition usageText : string :=
  "wslcd - resolve Linux or Windows-style paths for cd" ++ nl
  ++ nl
  ++ "Usage:" ++ nl
  ++ "  wslcd <path>" ++ nl
  ++ nl
  ++ "Examples:" ++ nl
  ++ "  wslcd /var/log" ++ nl
  ++ "  wslcd ../src" ++ nl
  ++ "  wslcd ~/projects" ++ nl
  ++ "  wslcd " ++ dq ++ "C:\\Users\\me\\Documents" ++ dq ++ nl
  ++ "  wslcd " ++ dq ++ "D:/Work/Repo" ++ dq ++ nl
  ++ "  wslcd c:JunkProjectsMyRepo   # collapsed Windows path without separators"
  ++ nl
  ++ nl
  ++ "This program prints the resolved target directory. Use a shell wrapper to actually cd:"
  ++ nl
  ++ "  wslcd() { local t; t=" ++ dq ++ "$(command wslcd " ++ dq ++ "$@" ++ dq
  ++ ")" ++ dq ++ " || return; [ -z " ++ dq ++ "$t" ++ dq
  ++ " ] && return; cd -- " ++ dq ++ "$t" ++ dq ++ "; }" ++ nl.

(** How the process ends: what it wrote to the standard output and to the
    standard error and its exit status; or a run-time panic; or a loop cut
    short by the fuel. *)
Inductive ending : Type :=
| Exited (stdout stderr : string) (status : Z)
| Crashed
| Unfinished.

(** [main] (lines 14-35), with [os.Args], the result of [os.Getwd] and the
    value of the environment variable [HOME] (empty when unset) as
    arguments.  [failf] (lines 56-59) writes the message and a line feed to
    the standard error and exits with status 1. *)
Definition main (L : GoLib) (fs : FileSystem) (fuel : nat)
  (os_Args : list string) (os_Getwd : result string) (HOME : string)
  : ending :=
  match os_Args with
  | [_; a1] =>
    if (a1 =? "-h")%string || (a1 =? "--help")%string
    then Exited "" usageText 0
    else
      let arg := a1 in
      match os_Getwd with
      | Err err =>
        Exited ""
          ("error: unable to get current working directory: " ++ err ++ nl) 1
      | Ok cwd =>
        let home := HOME in
        match ResolveTarget L fs fuel arg cwd home with
        | Done (Err err) => Exited "" (err ++ nl) 1
        | Done (Ok target) => Exited (target ++ nl) "" 0
        | Panic => Crashed
        | OutOfFuel => Unfinished
        end
      end
  | _ => Exited "" usageText 0 (* len(os.Args) != 2 *)
  end.

(* ================================================================= *)
(** ** Vocabulary of the properties *)

(** The number of equal runes at equal positions of two rune lists. *)
Fixpoint agree (ra rb : list rune) : nat :=
  match ra, rb with
  | a :: ra', b :: rb' => (if a =? b then 1 else 0) + agree ra' rb'
  | _, _ => 0
  end.

(** [a] comes no later than [b] in the order of the Candidate Selector:
    score descending, then full path ascending byte by byte. *)
Definition candFirst (a b : candidate) : Prop :=
  score b < score a
  \/ (score a = score b /\ String.leb (fullPath a) (fullPath b) = true).

(** The order of the Mount Root Locator: score descending, then name
    ascending. *)
Definition pairFirst (a b : pair) : Prop :=
  pairScore b < pairScore a
  \/ (pairScore a = pairScore b /\ String.leb (pairName a) (pairName b) = true).

(** The order of the Greedy Matcher: prefix length descending, then score
    descending, then name ascending. *)
Definition collapsedFirst (a b : cand) : Prop :=
  (plen b < plen a)%nat
  \/ (plen a = plen b
      /\ (candScore b < candScore a
          \/ (candScore a = candScore b
              /\ String.leb (candName a) (candName b) = true))).

(** [os.Stat] succeeds on [p] and reports a directory. *)
Definition statIsDir (fs : FileSystem) (p : string) : bool :=
  match os_Stat fs p with
  | Ok info => fiIsDir info
  | Err _ => false
  end.

(** What [ResolveTarget] answers for the path [p] of Linux-path
    resolution: [p] when [os.Stat] finds it to be a directory, and the
    error of [os.Stat] or the [not a directory] error otherwise. *)
Definition verifyDir (fs : FileSystem) (p : string) : run string :=
  match os_Stat fs p with
  | Err e => Done (Err ("error: " ++ e))
  | Ok info =>
    if fiIsDir info then Done (Ok p)
    else Done (Err ("error: not a directory: " ++ p))
  end.

(** The entry [e] of the directory [parent] resolves, following symbolic
    links, to a directory: the entry is a directory itself, or [os.Stat],
    which follows symbolic links, succeeds on the path of the entry and
    reports a directory. *)
Definition resolvesToDir (fs : FileSystem) (parent : string) (e : DirEntry)
  : bool :=
  IsDir e || statIsDir fs (filepath_Join [parent; Name e]).

(** The record the Explorer keeps of a matching entry [e] of [dir]. *)
Definition matchOf (dir seg : string) (e : DirEntry) : matchEntry :=
  {| matchName := Name e; matchScore := caseScore seg (Name e);
     matchPath := filepath_Join [dir; Name e] |}.

(** The candidates the search started in [dir] with the segments [rest] and
    the score [sc] appends, in the order it appends them. *)
Fixpoint emitted (L : GoLib) (fs : FileSystem) (rest : list string)
  (dir : string) (sc : Z) : list candidate :=
  match rest with
  | [] => if statIsDir fs dir then [{| fullPath := dir; score := sc |}] else []
  | seg :: rest' =>
    match os_ReadDir fs dir with
    | Err _ => []
    | Ok ents =>
      flat_map (fun m => emitted L fs rest' (matchPath m) (sc + matchScore m))
               (exploreMatches L fs dir seg ents)
    end
  end.

(** [Reached L fs rest dir sc c]: from the directory [dir], reached with the
    score [sc], a chain of listed entries leads to the candidate [c]: one
    entry per segment of [rest], each with a name equal to its segment under
    case folding and each resolving to a directory, the last of them, the
    path of [c], found by [os.Stat] to be a directory; the score of [c] is
    [sc] plus the case scores of the entries. *)
Inductive Reached (L : GoLib) (fs : FileSystem)
  : list string -> string -> Z -> candidate -> Prop :=
| Reached_here (dir : string) (sc : Z) :
    statIsDir fs dir = true ->
    Reached L fs [] dir sc {| fullPath := dir; score := sc |}
| Reached_down (seg : string) (rest : list string) (dir : string) (sc : Z)
    (ents : list DirEntry) (e : DirEntry) (c : candidate) :
    os_ReadDir fs dir = Ok ents ->
    In e ents ->
    strings_EqualFold L (Name e) seg = true ->
    resolvesToDir fs dir e = true ->
    Reached L fs rest (filepath_Join [dir; Name e])
            (sc + caseScore seg (Name e)) c ->
    Reached L fs (seg :: rest) dir sc c.




(** The length of a string in characters. *)
Definition runeLen (s : string) : Z := Z.of_nat (List.length (runes s)).


(** No other byte string decodes to the characters of [s]: so it is for
    every well-formed UTF-8 string in which U+FFFD does not occur. *)
Definition decodesUniquely (s : string) : Prop :=
  forall n, runes n = runes s -> n = s.

(** U+FFFD does not occur in the decoding of [s]: [s] is well-formed UTF-8
    and does not hold the encoding of U+FFFD. *)
Definition noRuneError (s : string) : Prop := ~ In RuneError (runes s).

(** The prefix condition of the Greedy Matcher and its candidates. *)
Definition prefixMatches (L : GoLib) (tail : string) (e : DirEntry) : bool :=
  (len (Name e) <=? len tail)%nat
  && strings_EqualFold L (sliceTo (len (Name e)) tail) (Name e).

Definition candOf (tail : string) (e : DirEntry) : cand :=
  {| candName := Name e; plen := len (Name e);
     candScore := caseScore (sliceTo (len (Name e)) tail) (Name e) |}.


(** A path segment as the normalization leaves them: not empty, neither
    [.] nor [..], and without a separator. *)
Definition plainSegment (s : string) : bool :=
  negb (s =? "")%string && negb (s =? ".")%string && negb (s =? "..")%string
  && negb (byteIn "/" s) && negb (byteIn "\" s).

(** The path starts at the root. *)
Definition isAbs (p : string) : bool := strings_HasPrefix p "/".


(** [Segmented L fs curr tail p]: from the directory [curr], the tail is
    used up to the last byte by separators, which are skipped, and by the
    names of listed entries that resolve to directories, each a prefix of
    what is left of the tail under case folding and each entered in turn;
    the directory reached at the end is [p], which [os.Stat] finds to be a
    directory. *)
Inductive Segmented (L : GoLib) (fs : FileSystem)
  : string -> string -> string -> Prop :=
| Segmented_end (curr : string) :
    statIsDir fs curr = true -> Segmented L fs curr EmptyString curr
| Segmented_skip (curr tail p : string) (t0 : ascii) (t' : string) :
    tail = String t0 t' ->
    Ascii.eqb t0 "/" || Ascii.eqb t0 "\" = true ->
    Segmented L fs curr (strings_TrimLeft tail "\/") p ->
    Segmented L fs curr tail p
| Segmented_take (curr tail p : string) (ents : list DirEntry) (e : DirEntry) :
    strings_TrimLeft tail "\/" = tail ->
    os_ReadDir fs curr = Ok ents ->
    In e ents ->
    prefixMatches L tail e = true ->
    resolvesToDir fs curr e = true ->
    Segmented L fs (filepath_Join [curr; Name e])
              (sliceFrom (len (Name e)) tail) p ->
    Segmented L fs curr tail p.

(** Two file systems that differ in the order in which their directories
    are listed only: [os.Stat] answers the same, and [os.ReadDir] fails
    with the same error or lists the same entries in some order. *)
Definition sameUpToOrder (fs fs' : FileSystem) : Prop :=
  (forall p, os_Stat fs' p = os_Stat fs p)
  /\ forall d,
      match os_ReadDir fs d, os_ReadDir fs' d with
      | Ok ents, Ok ents' => Permutation ents ents'
      | Err e, Err e' => e = e'
      | _, _ => False
      end.

(* ================================================================= *)
(** ** Concrete library tables and file systems for the examples *)

Module Fixture.

(** Tables that agree with those of Unicode on ASCII and on U+FFFD, the
    runes of the examples. *)
Definition isLetter (r : rune) : bool := inRange 65 90 r || inRange 97 122 r.
Definition toLower (r : rune) : rune := if inRange 65 90 r then r + 32 else r.
Definition fold (r : rune) : rune := if inRange 97 122 r then r - 32 else r.

Definition isSpaceByte (c : ascii) : bool :=
  inRange 9 13 (byteVal c) || (byteVal c =? 32).

Fixpoint trimLeftSpace (s : string) : string :=
  match s with
  | EmptyString => EmptyString
  | String c t => if isSpaceByte c then trimLeftSpace t else s
  end.

Fixpoint trimRightSpace (s : string) : string :=
  match s with
  | EmptyString => EmptyString
  | String c t =>
    match trimRightSpace t with
    | EmptyString => if isSpaceByte c then EmptyString else String c EmptyString
    | t' => String c t'
    end
  end.

Definition lib : GoLib :=
  {| unicode_IsLetter := isLetter;
     unicode_ToLower := toLower;
     foldClass := fold;
     strings_TrimSpace := fun s => trimRightSpace (trimLeftSpace s) |}.

Definition dir (n : string) : DirEntry := {| Name := n; IsDir := true |}.
Definition file (n : string) : DirEntry := {| Name := n; IsDir := false |}.

Fixpoint lookup (p : string) (t : list (string * list DirEntry))
  : option (list DirEntry) :=
  match t with
  | [] => None
  | (q, ents) :: t' => if (p =? q)%string then Some ents else lookup p t'
  end.

(** A file system given by the listing of each of its directories;
    the directories of [locked] exist and cannot be listed. *)
Definition mkFS (tree : list (string * list DirEntry)) (locked : list string)
  : FileSystem :=
  {| os_ReadDir := fun p =>
       if existsb (String.eqb p) locked then Err "permission denied"
       else match lookup p tree with
            | Some ents => Ok ents
            | None => Err "no such file or directory"
            end;
     os_Stat := fun p =>
       if existsb (String.eqb p) locked then Ok {| fiIsDir := true |}
       else match lookup p tree with
            | Some _ => Ok {| fiIsDir := true |}
            | None => Err "no such file or directory"
            end |}.

(** [/mnt/c] with the two directories of the tie-break example. *)
Definition usersFS : FileSystem :=
  mkFS [("/mnt", [dir "c"]);
        ("/mnt/c", [dir "USERS"; dir "Users"]);
        ("/mnt/c/USERS", []);
        ("/mnt/c/Users", [])] [].

(** [Foo] cannot be listed, its sibling [foo] can and holds [bar]. *)
Definition lockedFS : FileSystem :=
  mkFS [("/mnt", [dir "c"]);
        ("/mnt/c", [dir "Foo"; dir "foo"]);
        ("/mnt/c/foo", [dir "bar"]);
        ("/mnt/c/foo/bar", [])] ["/mnt/c/Foo"].

(** [Projects] and [ProjectsX] side by side; only [Projects] holds what the
    rest of the tail names. *)
Definition projectsFS : FileSystem :=
  mkFS [("/mnt", [dir "c"]);
        ("/mnt/c", [dir "Projects"; dir "ProjectsX"]);
        ("/mnt/c/Projects", [dir "Repo"; dir "Xrepo"]);
        ("/mnt/c/Projects/Repo", []);
        ("/mnt/c/Projects/Xrepo", []);
        ("/mnt/c/ProjectsX", [])] [].



(** [usersFS] with the two directories listed the other way round. *)
Definition usersFS' : FileSystem :=
  mkFS [("/mnt", [dir "c"]);
        ("/mnt/c", [dir "Users"; dir "USERS"]);
        ("/mnt/c/USERS", []);
        ("/mnt/c/Users", [])] [].

(** A file system with regular files as well: [os.Stat] finds them and
    reports no directory, and they cannot be listed. *)
Definition mkFSFiles (tree : list (string * list DirEntry))
  (locked files : list string) : FileSystem :=
  {| os_ReadDir := fun p =>
       if existsb (String.eqb p) files then Err "not a directory"
       else os_ReadDir (mkFS tree locked) p;
     os_Stat := fun p =>
       if existsb (String.eqb p) files then Ok {| fiIsDir := false |}
       else os_Stat (mkFS tree locked) p |}.

(** Beside the directories [Projects] and [ProjectsX], [/mnt/c] holds the
    regular file [ProjectsXr] and the symbolic link [projects] to a
    directory; [ProjectsX] holds the regular file [repo] and the symbolic
    link [Repo] to a directory.  The entry of a file and of a link is not
    a directory; [os.Stat] follows the link. *)
Definition linksFS : FileSystem :=
  mkFSFiles
    [("/mnt", [dir "c"]);
     ("/mnt/c", [dir "Projects"; dir "ProjectsX"; file "ProjectsXr";
                 file "projects"]);
     ("/mnt/c/Projects", [dir "Repo"]);
     ("/mnt/c/Projects/Repo", []);
     ("/mnt/c/ProjectsX", [file "repo"; file "Repo"]);
     ("/mnt/c/ProjectsX/Repo", []);
     ("/mnt/c/projects", [])]
    []
    ["/mnt/c/ProjectsXr"; "/mnt/c/ProjectsX/repo"].


(** The two bytes of the character U+00E9, and a directory named by the
    first of them alone. *)
Definition xC3 : string := String "195"%char EmptyString.
Definition xA9 : string := String "169"%char EmptyString.
Definition eAcute : string := String "195"%char (String "169"%char EmptyString).

Definition halfCharFS : FileSystem :=
  mkFS [("/mnt", [dir "c"]);
        ("/mnt/c", [dir xC3]);
        ("/mnt/c/" ++ xC3, [])] [].

(** A working directory away from the mounts: [c] names a directory of
    [/home/u] and a drive of [/mnt]. *)
Definition homeFS : FileSystem :=
  mkFS [("/", [dir "home"; dir "mnt"]);
        ("/home", [dir "u"]);
        ("/home/u", [dir "c"]);
        ("/home/u/c", []);
        ("/mnt", [dir "c"]);
        ("/mnt/c", [])] [].

End Fixture.

(* ================================================================= *)
(** ** Proof automation *)

(** Decides the comparisons of the goal from the hypotheses. *)
Ltac decide_tests :=
  repeat (cbn [orb andb negb];
          match goal with
          | |- context [?a <? ?b] => destruct (Z.ltb_spec a b); try lia
          | |- context [?a <=? ?b] => destruct (Z.leb_spec a b); try lia
          | |- context [?a =? ?b] => destruct (Z.eqb_spec a b); try lia
          end);
  cbn [orb andb negb].

(* ================================================================= *)
(** * Properties *)

(* ----------------------------------------------------------------- *)
(** ** The Case Scorer *)

Lemma fold_left_count (p : nat -> bool) (l : list nat) (acc : Z) :
  fold_left (fun s i => if p i then s + 1 else s) l acc
  = acc + Z.of_nat (List.length (filter p l)).
Proof.
  revert acc; induction l as [|i l IH]; intros acc; simpl.
  - lia.
  - rewrite IH. destruct (p i); simpl; lia.
Qed.

Lemma filter_seq_shift (p : nat -> bool) (n : nat) :
  List.length (filter p (seq 1 n))
  = List.length (filter (fun i => p (S i)) (seq 0 n)).
Proof.
  rewrite <- seq_shift.
  induction (seq 0 n) as [|i l IH]; simpl; [reflexivity|].
  destruct (p (S i)); simpl; congruence.
Qed.

Lemma count_agree (ra rb : list rune) :
  List.length
    (filter (fun i => nth i ra 0 =? nth i rb 0)
            (seq 0 (Nat.min (List.length ra) (List.length rb))))
  = agree ra rb.
Proof.
  revert rb; induction ra as [|a ra IH]; intros [|b rb]; try reflexivity.
  cbn [List.length Nat.min seq filter nth agree].
  rewrite <- IH.
  destruct (a =? b); cbn [List.length Nat.add];
    now rewrite (filter_seq_shift (fun i => nth i (a :: ra) 0 =? nth i (b :: rb) 0)).
Qed.

Lemma matchingPositions_In (a b : string) (i : nat) :
  In i (matchingPositions a b)
  <-> (i < Nat.min (List.length (runes a)) (List.length (runes b)))%nat
      /\ nth i (runes a) 0 = nth i (runes b) 0.
Proof.
  unfold matchingPositions. rewrite filter_In, in_seq, Z.eqb_eq. intuition lia.
Qed.

Lemma caseScore_matchingPositions (a b : string) :
  caseScore a b = Z.of_nat (List.length (matchingPositions a b)).
Proof.
  unfold caseScore, matchingPositions.
  rewrite (fold_left_count (fun i => nth i (runes a) 0 =? nth i (runes b) 0)).
  replace (if (List.length (runes b) <? List.length (runes a))%nat
           then List.length (runes b) else List.length (runes a))
    with (Nat.min (List.length (runes a)) (List.length (runes b))).
  - lia.
  - destruct (Nat.ltb_spec (List.length (runes b)) (List.length (runes a))); lia.
Qed.

Lemma caseScore_agree (a b : string) :
  caseScore a b = Z.of_nat (agree (runes a) (runes b)).
Proof.
  rewrite caseScore_matchingPositions. unfold matchingPositions.
  now rewrite count_agree.
Qed.

Lemma agree_le (ra rb : list rune) : (agree ra rb <= List.length ra)%nat.
Proof.
  revert rb; induction ra as [|a ra IH]; intros [|b rb]; simpl; try lia.
  specialize (IH rb). destruct (a =? b); lia.
Qed.

Lemma agree_refl (ra : list rune) : agree ra ra = List.length ra.
Proof.
  induction ra as [|a ra IH]; simpl; [reflexivity|].
  rewrite Z.eqb_refl, IH. reflexivity.
Qed.

Lemma agree_full (ra rb : list rune) :
  List.length rb = List.length ra -> agree ra rb = List.length ra -> rb = ra.
Proof.
  revert rb; induction ra as [|a ra IH]; intros [|b rb]; simpl;
    try discriminate; try reflexivity.
  intros Hl Ha. pose proof (agree_le ra rb) as Hle.
  destruct (Z.eqb_spec a b) as [->|]; [|lia].
  f_equal. apply IH; lia.
Qed.

(** C3.  For all strings [a] and [b], [caseScore a b] is a non-negative
    integer, the number of positions below the length of the shorter of the
    two strings, counted in characters, at which [a] and [b] carry the same
    character; what the longer string has beyond that length adds
    nothing. *)
Theorem caseScore_counts_equal_positions (a b : string) :
  0 <= caseScore a b
  /\ caseScore a b = Z.of_nat (List.length (matchingPositions a b)).
Proof.
  rewrite caseScore_matchingPositions. split; lia.
Qed.

(** C4, as the claim has it, fails: no position of [AB] carries the
    character that [ab] or [abcdef] carries there, so neither score is 2. *)
Lemma caseScore_AB_not_2 :
  ~ (caseScore "AB" "ab" = caseScore "AB" "abcdef"
     /\ caseScore "AB" "ab" = 2 /\ caseScore "AB" "abcdef" = 2).
Proof.
  intros (_ & H & _). vm_compute in H. discriminate H.
Qed.

(** C4, amended.  The score of the requested segment [AB] against [ab]
    equals its score against [abcdef], and both scores are 0. *)
Theorem caseScore_AB_ab_abcdef :
  caseScore "AB" "ab" = caseScore "AB" "abcdef"
  /\ caseScore "AB" "ab" = 0 /\ caseScore "AB" "abcdef" = 0.
Proof.
  repeat split; vm_compute; reflexivity.
Qed.

(* ----------------------------------------------------------------- *)
(** ** The byte-wise order of strings *)

Lemma ascii_compare_trans (a b c : ascii) :
  Ascii.compare a b = Lt -> Ascii.compare b c = Lt -> Ascii.compare a c = Lt.
Proof.
  unfold Ascii.compare. rewrite !N.compare_lt_iff. lia.
Qed.

Lemma string_compare_refl (s : string) : String.compare s s = Eq.
Proof.
  induction s as [|c s IH]; simpl; [reflexivity|].
  unfold Ascii.compare. now rewrite N.compare_refl.
Qed.

Lemma string_compare_trans (s1 s2 s3 : string) :
  String.compare s1 s2 = Lt -> String.compare s2 s3 = Lt ->
  String.compare s1 s3 = Lt.
Proof.
  revert s2 s3; induction s1 as [|a s1 IH]; intros [|b s2] [|c s3]; simpl;
    try discriminate; try reflexivity.
  destruct (Ascii.compare a b) eqn:Hab; try discriminate;
    destruct (Ascii.compare b c) eqn:Hbc; try discriminate; intros H1 H2.
  - apply Ascii.compare_eq_iff in Hab, Hbc; subst.
    unfold Ascii.compare; rewrite N.compare_refl. eauto.
  - apply Ascii.compare_eq_iff in Hab; subst. now rewrite Hbc.
  - apply Ascii.compare_eq_iff in Hbc; subst. now rewrite Hab.
  - now rewrite (ascii_compare_trans _ _ _ Hab Hbc).
Qed.

Lemma ltb_asym (s t : string) : String.ltb s t = true -> String.ltb t s = false.
Proof.
  unfold String.ltb. rewrite (String.compare_antisym s t).
  destruct (String.compare t s); simpl; congruence.
Qed.

Lemma ltb_negtrans (s t u : string) :
  String.ltb s t = false -> String.ltb t u = false -> String.ltb s u = false.
Proof.
  unfold String.ltb.
  destruct (String.compare s u) eqn:Hsu; try reflexivity.
  destruct (String.compare s t) eqn:Hst; try discriminate;
    destruct (String.compare t u) eqn:Htu; try discriminate; intros _ _.
  - apply String.compare_eq_iff in Hst, Htu; subst.
    rewrite string_compare_refl in Hsu; discriminate.
  - apply String.compare_eq_iff in Hst; subst. congruence.
  - apply String.compare_eq_iff in Htu; subst. congruence.
  - rewrite String.compare_antisym in Hst, Htu.
    destruct (String.compare t s) eqn:Hts; try discriminate.
    destruct (String.compare u t) eqn:Hut; try discriminate.
    pose proof (string_compare_trans _ _ _ Hut Hts) as Hus.
    rewrite String.compare_antisym, Hus in Hsu. discriminate.
Qed.

Lemma ltb_false_leb (s t : string) :
  String.ltb s t = false -> String.leb t s = true.
Proof.
  unfold String.ltb, String.leb. rewrite (String.compare_antisym s t).
  destruct (String.compare t s); simpl; congruence.
Qed.

(* ----------------------------------------------------------------- *)
(** ** The stable sort and its first element *)

Section StableSort.

Context {A : Type} (less : A -> A -> bool).
Hypothesis less_asym : forall a b, less a b = true -> less b a = false.
Hypothesis less_negtrans :
  forall a b c, less a b = false -> less b c = false -> less a c = false.

Lemma less_irrefl (a : A) : less a a = false.
Proof.
  destruct (less a a) eqn:E; [|reflexivity].
  now rewrite (less_asym _ _ E) in E.
Qed.

Lemma insertStable_In (x y : A) (l : list A) :
  In y (insertStable less x l) <-> y = x \/ In y l.
Proof.
  induction l as [|z l IH]; simpl; [intuition congruence|].
  destruct (less z x); simpl; rewrite ?IH; intuition congruence.
Qed.

Lemma sort_SliceStable_In (y : A) (l : list A) :
  In y (sort_SliceStable less l) <-> In y l.
Proof.
  induction l as [|x l IH]; simpl; [tauto|].
  rewrite insertStable_In, IH. intuition congruence.
Qed.

Lemma sort_SliceStable_length (l : list A) :
  List.length (sort_SliceStable less l) = List.length l.
Proof.
  assert (Hins : forall x l, List.length (insertStable less x l) = S (List.length l)).
  { intros x l0; induction l0 as [|z l0 IH]; simpl; [reflexivity|].
    destruct (less z x); simpl; congruence. }
  induction l as [|x l IH]; simpl; [reflexivity|].
  now rewrite Hins, IH.
Qed.

(** The element at index 0 after sorting is an element of the list that
    no element of the list comes before. *)
Lemma sort_SliceStable_first (d : A) (l : list A) :
  l <> [] ->
  In (hd d (sort_SliceStable less l)) l
  /\ forall x, In x l -> less x (hd d (sort_SliceStable less l)) = false.
Proof.
  induction l as [|x l IH]; [congruence|]. intros _.
  destruct l as [|x' l'].
  - simpl. split; [now left|]. intros y [E|[]]; subst. apply less_irrefl.
  - destruct IH as [IHin IHmin]; [discriminate|].
    change (sort_SliceStable less (x :: x' :: l'))
      with (insertStable less x (sort_SliceStable less (x' :: l'))).
    destruct (sort_SliceStable less (x' :: l')) as [|h t] eqn:Hs.
    + apply (f_equal (@List.length A)) in Hs.
      rewrite sort_SliceStable_length in Hs. discriminate.
    + cbn [hd] in IHin, IHmin. cbn [insertStable].
      destruct (less h x) eqn:Hhx; cbn [hd].
      * split; [now right|].
        intros y [E|Hy]; [subst; now apply less_asym|now apply IHmin].
      * split; [now left|]. intros y [E|Hy]; [subst; apply less_irrefl|].
        apply less_negtrans with h; [now apply IHmin|assumption].
Qed.

(** The model of [sort.SliceStable] sorts: its result is a permutation of
    the list in which no element comes before one that is less. *)
Lemma insertStable_Permutation (x : A) (l : list A) :
  Permutation (x :: l) (insertStable less x l).
Proof.
  induction l as [|y l IH]; simpl; [reflexivity|].
  destruct (less y x); [|reflexivity].
  rewrite perm_swap. now apply perm_skip.
Qed.

Lemma sort_SliceStable_Permutation (l : list A) :
  Permutation l (sort_SliceStable less l).
Proof.
  induction l as [|x l IH]; simpl; [reflexivity|].
  rewrite <- insertStable_Permutation. now apply perm_skip.
Qed.

Lemma insertStable_sorted (x : A) (l : list A) :
  StronglySorted (fun a b => less b a = false) l ->
  StronglySorted (fun a b => less b a = false) (insertStable less x l).
Proof.
  induction 1 as [|y l Hs IH Hall]; simpl.
  - repeat constructor.
  - destruct (less y x) eqn:Hyx.
    + constructor; [exact IH|].
      apply Forall_forall. intros z Hz. apply insertStable_In in Hz.
      destruct Hz as [->|Hz]; [now apply less_asym|].
      rewrite Forall_forall in Hall. now apply Hall.
    + constructor; [now constructor|].
      constructor; [exact Hyx|].
      apply Forall_forall. intros z Hz. rewrite Forall_forall in Hall.
      apply less_negtrans with y; [now apply Hall|exact Hyx].
Qed.

Lemma sort_SliceStable_sorted (l : list A) :
  StronglySorted (fun a b => less b a = false) (sort_SliceStable less l).
Proof.
  induction l as [|x l IH]; simpl; [constructor|].
  now apply insertStable_sorted.
Qed.

End StableSort.

Lemma candLess_asym (a b : candidate) : candLess a b = true -> candLess b a = false.
Proof.
  unfold candLess.
  destruct (Z.eqb_spec (score a) (score b)) as [E|E];
    destruct (Z.eqb_spec (score b) (score a)) as [E'|E']; simpl; try lia.
  apply ltb_asym.
Qed.

Lemma candLess_negtrans (a b c : candidate) :
  candLess a b = false -> candLess b c = false -> candLess a c = false.
Proof.
  unfold candLess.
  destruct (Z.eqb_spec (score a) (score b)); destruct (Z.eqb_spec (score b) (score c));
    destruct (Z.eqb_spec (score a) (score c)); simpl;
    rewrite ?Z.ltb_ge; try lia; try (intros; lia).
  apply ltb_negtrans.
Qed.

Lemma pairLess_asym (a b : pair) : pairLess a b = true -> pairLess b a = false.
Proof.
  unfold pairLess.
  destruct (Z.eqb_spec (pairScore a) (pairScore b)) as [E|E];
    destruct (Z.eqb_spec (pairScore b) (pairScore a)) as [E'|E']; simpl; try lia.
  apply ltb_asym.
Qed.

Lemma pairLess_negtrans (a b c : pair) :
  pairLess a b = false -> pairLess b c = false -> pairLess a c = false.
Proof.
  unfold pairLess.
  destruct (Z.eqb_spec (pairScore a) (pairScore b));
    destruct (Z.eqb_spec (pairScore b) (pairScore c));
    destruct (Z.eqb_spec (pairScore a) (pairScore c)); simpl;
    rewrite ?Z.ltb_ge; try lia; try (intros; lia).
  apply ltb_negtrans.
Qed.

Lemma collapsedLess_asym (a b : cand) :
  collapsedLess a b = true -> collapsedLess b a = false.
Proof.
  unfold collapsedLess.
  destruct (Nat.eqb_spec (plen a) (plen b)) as [E|E];
    destruct (Nat.eqb_spec (plen b) (plen a)) as [E'|E']; simpl; try lia.
  destruct (Z.eqb_spec (candScore a) (candScore b)) as [F|F];
    destruct (Z.eqb_spec (candScore b) (candScore a)) as [F'|F']; simpl; try lia.
  - apply ltb_asym.
  - rewrite Nat.ltb_lt, Nat.ltb_ge. lia.
Qed.

Lemma collapsedLess_negtrans (a b c : cand) :
  collapsedLess a b = false -> collapsedLess b c = false ->
  collapsedLess a c = false.
Proof.
  unfold collapsedLess.
  destruct (Nat.eqb_spec (plen a) (plen b)); destruct (Nat.eqb_spec (plen b) (plen c));
    destruct (Nat.eqb_spec (plen a) (plen c)); simpl;
    rewrite ?Nat.ltb_ge; try lia; try (intros; lia).
  destruct (Z.eqb_spec (candScore a) (candScore b));
    destruct (Z.eqb_spec (candScore b) (candScore c));
    destruct (Z.eqb_spec (candScore a) (candScore c)); simpl;
    rewrite ?Z.ltb_ge; try lia; try (intros; lia).
  apply ltb_negtrans.
Qed.

(* ----------------------------------------------------------------- *)
(** ** UTF-8: what decodes without U+FFFD decodes from one string only *)

Lemma byteVal_range (c : ascii) : 0 <= byteVal c < 256.
Proof.
  unfold byteVal. pose proof (N_ascii_bounded c). lia.
Qed.

Lemma byteOf_byteVal (c : ascii) : byteOf (byteVal c) = c.
Proof.
  unfold byteOf, byteVal. rewrite N2Z.id. apply ascii_N_embedding.
Qed.

Lemma lor_add (x y n : Z) :
  0 <= n -> 0 <= y < 2 ^ n -> x mod 2 ^ n = 0 -> Z.lor x y = x + y.
Proof.
  intros Hn Hy Hx.
  rewrite <- (Z.add_lor_land x y).
  replace (Z.land x y) with 0; [lia|].
  symmetry. apply Z.bits_inj'. intros k Hk.
  rewrite Z.land_spec, Z.bits_0.
  destruct (Z.lt_ge_cases k n) as [Hlt|Hge].
  - rewrite <- (Z.mod_pow2_bits_low x n k) by lia. rewrite Hx, Z.bits_0.
    reflexivity.
  - rewrite <- (Z.mod_small y (2 ^ n)) by lia.
    rewrite Z.mod_pow2_bits_high by lia. apply andb_false_r.
Qed.

Lemma land_0x3F (x : Z) : Z.land x 0x3F = x mod 64.
Proof. change 0x3F with (Z.ones 6). now rewrite Z.land_ones by lia. Qed.

Lemma land_0x1F (x : Z) : Z.land x 0x1F = x mod 32.
Proof. change 0x1F with (Z.ones 5). now rewrite Z.land_ones by lia. Qed.

Lemma land_0x0F (x : Z) : Z.land x 0x0F = x mod 16.
Proof. change 0x0F with (Z.ones 4). now rewrite Z.land_ones by lia. Qed.

Lemma land_0x07 (x : Z) : Z.land x 0x07 = x mod 8.
Proof. change 0x07 with (Z.ones 3). now rewrite Z.land_ones by lia. Qed.

Lemma decode2_arith (b0 b1 : Z) :
  Z.lor (Z.shiftl (Z.land b0 0x1F) 6) (Z.land b1 0x3F)
  = (b0 mod 32) * 64 + b1 mod 64.
Proof.
  rewrite ?land_0x3F, ?land_0x1F, ?land_0x0F, ?land_0x07,
    !Z.shiftl_mul_pow2 by lia.
  change (2 ^ 6) with 64; change (2 ^ 12) with 4096;
    change (2 ^ 18) with 262144. apply (lor_add _ _ 6); [lia| |].
  - change (2 ^ 6) with 64. apply Z.mod_pos_bound. lia.
  - change (2 ^ 6) with 64. apply Z.mod_mul. lia.
Qed.

Lemma decode3_arith (b0 b1 b2 : Z) :
  Z.lor (Z.lor (Z.shiftl (Z.land b0 0x0F) 12) (Z.shiftl (Z.land b1 0x3F) 6))
        (Z.land b2 0x3F)
  = (b0 mod 16) * 4096 + (b1 mod 64) * 64 + b2 mod 64.
Proof.
  rewrite ?land_0x3F, ?land_0x1F, ?land_0x0F, ?land_0x07,
    !Z.shiftl_mul_pow2 by lia.
  change (2 ^ 6) with 64; change (2 ^ 12) with 4096;
    change (2 ^ 18) with 262144.
  rewrite (lor_add (b0 mod 16 * 4096) (b1 mod 64 * 64) 12).
  - apply (lor_add _ _ 6); change (2 ^ 6) with 64; [lia| |].
    + apply Z.mod_pos_bound. lia.
    + replace (b0 mod 16 * 4096 + b1 mod 64 * 64)
        with ((b0 mod 16 * 64 + b1 mod 64) * 64) by lia.
      apply Z.mod_mul. lia.
  - lia.
  - change (2 ^ 12) with 4096. pose proof (Z.mod_pos_bound b1 64). lia.
  - change (2 ^ 12) with 4096. apply Z.mod_mul. lia.
Qed.

Lemma decode4_arith (b0 b1 b2 b3 : Z) :
  Z.lor (Z.lor (Z.lor (Z.shiftl (Z.land b0 0x07) 18)
                      (Z.shiftl (Z.land b1 0x3F) 12))
               (Z.shiftl (Z.land b2 0x3F) 6))
        (Z.land b3 0x3F)
  = (b0 mod 8) * 262144 + (b1 mod 64) * 4096 + (b2 mod 64) * 64 + b3 mod 64.
Proof.
  rewrite ?land_0x3F, ?land_0x1F, ?land_0x0F, ?land_0x07,
    !Z.shiftl_mul_pow2 by lia.
  change (2 ^ 6) with 64; change (2 ^ 12) with 4096;
    change (2 ^ 18) with 262144.
  rewrite (lor_add (b0 mod 8 * 262144) (b1 mod 64 * 4096) 18).
  - rewrite (lor_add _ (b2 mod 64 * 64) 12).
    + apply (lor_add _ _ 6); change (2 ^ 6) with 64; [lia| |].
      * apply Z.mod_pos_bound. lia.
      * replace (b0 mod 8 * 262144 + b1 mod 64 * 4096 + b2 mod 64 * 64)
          with ((b0 mod 8 * 4096 + b1 mod 64 * 64 + b2 mod 64) * 64) by lia.
        apply Z.mod_mul. lia.
    + lia.
    + change (2 ^ 12) with 4096. pose proof (Z.mod_pos_bound b2 64). lia.
    + change (2 ^ 12) with 4096.
      replace (b0 mod 8 * 262144 + b1 mod 64 * 4096)
        with ((b0 mod 8 * 64 + b1 mod 64) * 4096) by lia.
      apply Z.mod_mul. lia.
  - lia.
  - change (2 ^ 18) with 262144. pose proof (Z.mod_pos_bound b1 64). lia.
  - change (2 ^ 18) with 262144. apply Z.mod_mul. lia.
Qed.

Lemma lead2_add (v : Z) : 0 <= v < 64 -> Z.lor 0xC0 v = 192 + v.
Proof. intros. now apply (lor_add 192 v 6). Qed.

Lemma cont_add (v : Z) : 0 <= v < 64 -> Z.lor 0x80 v = 128 + v.
Proof. intros. now apply (lor_add 128 v 6). Qed.

Lemma lead3_add (v : Z) : 0 <= v < 16 -> Z.lor 0xE0 v = 224 + v.
Proof. intros. now apply (lor_add 224 v 4). Qed.

Lemma lead4_add (v : Z) : 0 <= v < 8 -> Z.lor 0xF0 v = 240 + v.
Proof. intros. now apply (lor_add 240 v 3). Qed.

Lemma encode_1 (b : Z) :
  0 <= b < 0x80 -> encodeRune b = String (byteOf b) EmptyString.
Proof.
  intros H. unfold encodeRune, inRange. decide_tests. reflexivity.
Qed.

Lemma encode_2 (b0 b1 : Z) :
  0xC2 <= b0 <= 0xDF -> 0x80 <= b1 <= 0xBF ->
  encodeRune ((b0 mod 32) * 64 + b1 mod 64)
  = String (byteOf b0) (String (byteOf b1) EmptyString).
Proof.
  intros H0 H1.
  replace ((b0 mod 32) * 64 + b1 mod 64) with ((b0 - 192) * 64 + (b1 - 128))
    by (Z.div_mod_to_equations; lia).
  set (r := (b0 - 192) * 64 + (b1 - 128)).
  assert (Hq : Z.shiftr r 6 = b0 - 192).
  { rewrite Z.shiftr_div_pow2 by lia. change (2 ^ 6) with 64.
    subst r. Z.div_mod_to_equations. lia. }
  assert (Hm : Z.land r 0x3F = b1 - 128).
  { rewrite land_0x3F. subst r. Z.div_mod_to_equations. lia. }
  unfold encodeRune, inRange. rewrite Hq, Hm.
  rewrite lead2_add, cont_add by lia.
  subst r. decide_tests; cbn [map string_of_list_ascii];
    repeat f_equal; lia.
Qed.

Lemma encode_3 (b0 b1 b2 : Z) :
  0xE0 <= b0 <= 0xEF -> 0x80 <= b1 <= 0xBF -> 0x80 <= b2 <= 0xBF ->
  (b0 = 0xE0 -> 0xA0 <= b1) -> (b0 = 0xED -> b1 <= 0x9F) ->
  encodeRune ((b0 mod 16) * 4096 + (b1 mod 64) * 64 + b2 mod 64)
  = String (byteOf b0) (String (byteOf b1) (String (byteOf b2) EmptyString)).
Proof.
  intros H0 H1 H2 HE0 HED.
  replace ((b0 mod 16) * 4096 + (b1 mod 64) * 64 + b2 mod 64)
    with ((b0 - 224) * 4096 + (b1 - 128) * 64 + (b2 - 128))
    by (Z.div_mod_to_equations; lia).
  set (r := (b0 - 224) * 4096 + (b1 - 128) * 64 + (b2 - 128)).
  assert (Hq : Z.shiftr r 12 = b0 - 224).
  { rewrite Z.shiftr_div_pow2 by lia. change (2 ^ 12) with 4096.
    subst r. Z.div_mod_to_equations. lia. }
  assert (Hm1 : Z.land (Z.shiftr r 6) 0x3F = b1 - 128).
  { rewrite land_0x3F, Z.shiftr_div_pow2 by lia. change (2 ^ 6) with 64.
    subst r. Z.div_mod_to_equations. lia. }
  assert (Hm2 : Z.land r 0x3F = b2 - 128).
  { rewrite land_0x3F. subst r. Z.div_mod_to_equations. lia. }
  unfold encodeRune, inRange. rewrite Hq, Hm1, Hm2.
  rewrite lead3_add, !cont_add by lia.
  assert (Hlo : 0x800 <= r) by (subst r; lia).
  assert (Hsur : r < 0xD800 \/ 0xDFFF < r) by (subst r; lia).
  assert (Hhi : r <= 0xFFFF) by (subst r; lia).
  clearbody r. decide_tests; cbn [map string_of_list_ascii];
    repeat f_equal; lia.
Qed.

Lemma encode_4 (b0 b1 b2 b3 : Z) :
  0xF0 <= b0 <= 0xF4 -> 0x80 <= b1 <= 0xBF -> 0x80 <= b2 <= 0xBF ->
  0x80 <= b3 <= 0xBF ->
  (b0 = 0xF0 -> 0x90 <= b1) -> (b0 = 0xF4 -> b1 <= 0x8F) ->
  encodeRune ((b0 mod 8) * 262144 + (b1 mod 64) * 4096 + (b2 mod 64) * 64
              + b3 mod 64)
  = String (byteOf b0)
      (String (byteOf b1) (String (byteOf b2) (String (byteOf b3) EmptyString))).
Proof.
  intros H0 H1 H2 H3 HF0 HF4.
  replace ((b0 mod 8) * 262144 + (b1 mod 64) * 4096 + (b2 mod 64) * 64
           + b3 mod 64)
    with ((b0 - 240) * 262144 + (b1 - 128) * 4096 + (b2 - 128) * 64 + (b3 - 128))
    by (Z.div_mod_to_equations; lia).
  set (r := (b0 - 240) * 262144 + (b1 - 128) * 4096 + (b2 - 128) * 64
            + (b3 - 128)).
  assert (Hq : Z.shiftr r 18 = b0 - 240).
  { rewrite Z.shiftr_div_pow2 by lia. change (2 ^ 18) with 262144.
    subst r. Z.div_mod_to_equations. lia. }
  assert (Hm1 : Z.land (Z.shiftr r 12) 0x3F = b1 - 128).
  { rewrite land_0x3F, Z.shiftr_div_pow2 by lia. change (2 ^ 12) with 4096.
    subst r. Z.div_mod_to_equations. lia. }
  assert (Hm2 : Z.land (Z.shiftr r 6) 0x3F = b2 - 128).
  { rewrite land_0x3F, Z.shiftr_div_pow2 by lia. change (2 ^ 6) with 64.
    subst r. Z.div_mod_to_equations. lia. }
  assert (Hm3 : Z.land r 0x3F = b3 - 128).
  { rewrite land_0x3F. subst r. Z.div_mod_to_equations. lia. }
  unfold encodeRune, inRange. rewrite Hq, Hm1, Hm2, Hm3.
  rewrite lead4_add, !cont_add by lia.
  assert (Hlo : 0x10000 <= r) by (subst r; lia).
  assert (Hhi : r <= 0x10FFFF) by (subst r; lia).
  clearbody r. decide_tests; cbn [map string_of_list_ascii];
    repeat f_equal; lia.
Qed.

Lemma inRange_true (lo hi b : Z) : inRange lo hi b = true -> lo <= b <= hi.
Proof.
  unfold inRange. intros H. apply andb_prop in H. lia.
Qed.

(** One step of the decoder: the first rune and what is left to decode;
    unless the rune is U+FFFD, the bytes consumed are its encoding. *)
Lemma acceptFirst_inv (b0 : Z) (sz : nat) (lo hi : Z) :
  acceptFirst b0 = Some (sz, lo, hi) ->
  0x80 <= lo /\ hi <= 0xBF
  /\ ((sz = 2%nat /\ 0xC2 <= b0 <= 0xDF)
      \/ (sz = 3%nat /\ 0xE0 <= b0 <= 0xEF
          /\ (b0 = 0xE0 -> 0xA0 <= lo) /\ (b0 = 0xED -> hi <= 0x9F))
      \/ (sz = 4%nat /\ 0xF0 <= b0 <= 0xF4
          /\ (b0 = 0xF0 -> 0x90 <= lo) /\ (b0 = 0xF4 -> hi <= 0x8F))).
Proof.
  unfold acceptFirst.
  repeat match goal with
         | |- context [if ?b then _ else _] => destruct b eqn:?
         end; try discriminate;
    intros [= <- <- <-];
    repeat match goal with
           | H : inRange _ _ _ = true |- _ => apply inRange_true in H
           | H : (_ =? _) = true |- _ => apply Z.eqb_eq in H
           end;
    (split; [lia|split; [lia|]]);
    first [ left; split; [reflexivity|lia]
          | right; left; split; [reflexivity|lia]
          | right; right; split; [reflexivity|lia] ].
Qed.

Lemma runes_step (c : ascii) (t : string) :
  exists r rest,
    runes (String c t) = r :: runes rest
    /\ (r = RuneError \/ String c t = encodeRune r ++ rest).
Proof.
  pose proof (byteVal_range c) as Hc.
  cbn [runes].
  destruct (Z.ltb_spec (byteVal c) 0x80) as [Hlow|Hhigh].
  { exists (byteVal c), t. split; [reflexivity|right].
    rewrite encode_1, byteOf_byteVal by lia. reflexivity. }
  destruct (acceptFirst (byteVal c)) as [[[sz lo] hi]|] eqn:Hacc;
    [|exists RuneError, t; split; [reflexivity|now left]].
  apply acceptFirst_inv in Hacc. destruct Hacc as (Hlo & Hhi & Hacc).
  destruct t as [|c1 t1];
    [exists RuneError, EmptyString; split; [reflexivity|now left]|].
  destruct (inRange lo hi (byteVal c1)) eqn:H1; cbn [negb];
    [|exists RuneError, (String c1 t1); split; [reflexivity|now left]].
  apply inRange_true in H1.
  destruct (Nat.leb_spec sz 2) as [Hsz2|Hsz2].
  { exists (Z.lor (Z.shiftl (Z.land (byteVal c) 0x1F) 6)
                  (Z.land (byteVal c1) 0x3F)), t1.
    split; [reflexivity|right].
    rewrite decode2_arith, encode_2, !byteOf_byteVal by lia. reflexivity. }
  destruct t1 as [|c2 t2];
    [exists RuneError, (String c1 EmptyString); split; [reflexivity|now left]|].
  destruct (isCont (byteVal c2)) eqn:H2; cbn [negb];
    [|exists RuneError, (String c1 (String c2 t2)); split; [reflexivity|now left]].
  apply inRange_true in H2.
  destruct (Nat.leb_spec sz 3) as [Hsz3|Hsz3].
  { eexists _, t2. split; [reflexivity|right].
    rewrite decode3_arith, encode_3, !byteOf_byteVal by lia. reflexivity. }
  destruct t2 as [|c3 t3];
    [exists RuneError, (String c1 (String c2 EmptyString));
     split; [reflexivity|now left]|].
  destruct (isCont (byteVal c3)) eqn:H3; cbn [negb];
    [|exists RuneError, (String c1 (String c2 (String c3 t3)));
      split; [reflexivity|now left]].
  apply inRange_true in H3.
  eexists _, t3. split; [reflexivity|right].
  rewrite decode4_arith, encode_4, !byteOf_byteVal by lia. reflexivity.
Qed.

Lemma runes_nil_inv (s : string) : runes s = [] -> s = EmptyString.
Proof.
  destruct s as [|c t]; [reflexivity|].
  destruct (runes_step c t) as (r & rest & -> & _). discriminate.
Qed.

Lemma runes_determine (rs : list rune) :
  ~ In RuneError rs ->
  forall n s, runes n = rs -> runes s = rs -> n = s.
Proof.
  induction rs as [|r rs IH]; intros Hno n s Hn Hs.
  - apply runes_nil_inv in Hn, Hs. congruence.
  - destruct n as [|c t]; [discriminate|].
    destruct s as [|c' t']; [discriminate|].
    destruct (runes_step c t) as (r1 & rest1 & E1 & D1).
    destruct (runes_step c' t') as (r2 & rest2 & E2 & D2).
    rewrite E1 in Hn. rewrite E2 in Hs.
    injection Hn as Hr1 Hn. injection Hs as Hr2 Hs. subst r1 r2.
    destruct D1 as [D1|D1]; [elim Hno; now left|].
    destruct D2 as [D2|D2]; [elim Hno; now left|].
    rewrite D1, D2. f_equal. apply IH; [|assumption|assumption].
    intros H. apply Hno. now right.
Qed.

(** Every string in whose decoding U+FFFD does not occur (so every
    well-formed UTF-8 string without that character, and every ASCII
    string) is the only string with its characters. *)
Lemma no_RuneError_decodesUniquely (s : string) :
  ~ In RuneError (runes s) -> decodesUniquely s.
Proof.
  intros Hno n Hn. apply (runes_determine (runes s) Hno); [assumption|reflexivity].
Qed.

Lemma candLess_false_first (x h : candidate) :
  candLess x h = false -> candFirst h x.
Proof.
  unfold candLess, candFirst.
  destruct (Z.eqb_spec (score x) (score h)) as [E|E]; simpl.
  - intros H. right. split; [congruence|]. now apply ltb_false_leb.
  - rewrite Z.ltb_ge. intros H. left. lia.
Qed.

Lemma pairLess_false_first (x h : pair) :
  pairLess x h = false -> pairFirst h x.
Proof.
  unfold pairLess, pairFirst.
  destruct (Z.eqb_spec (pairScore x) (pairScore h)) as [E|E]; simpl.
  - intros H. right. split; [congruence|]. now apply ltb_false_leb.
  - rewrite Z.ltb_ge. intros H. left. lia.
Qed.

Lemma collapsedLess_false_first (x h : cand) :
  collapsedLess x h = false -> collapsedFirst h x.
Proof.
  unfold collapsedLess, collapsedFirst.
  destruct (Nat.eqb_spec (plen x) (plen h)) as [E|E]; simpl.
  - destruct (Z.eqb_spec (candScore x) (candScore h)) as [F|F]; simpl.
    + intros H. right. split; [congruence|]. right.
      split; [congruence|]. now apply ltb_false_leb.
    + rewrite Z.ltb_ge. intros H. right. split; [congruence|]. left. lia.
  - rewrite Nat.ltb_ge. intros H. left. lia.
Qed.

(** The three orders are orders of the values compared: two elements that
    each come no later than the other are the same. *)
Lemma candFirst_antisym (a b : candidate) :
  candFirst a b -> candFirst b a -> a = b.
Proof.
  destruct a as [pa sa], b as [pb sb]; unfold candFirst; simpl.
  intros [H1|[E1 H1]] [H2|[E2 H2]]; try lia.
  subst. f_equal. now apply String.leb_antisym.
Qed.

(* ----------------------------------------------------------------- *)
(** ** The Candidate Selector *)

Section Selector.

Context (L : GoLib) (fs : FileSystem).

(** The selection of [resolveWindowsPath] from a list of candidates that
    is not empty. *)
Lemma select_first_candidate
  (win rest mntRoot : string) (w0 w1 : ascii) (cands : list candidate) :
  win = String w0 (String w1 rest) ->
  pickCaseInsensitiveEntry L fs "/mnt"
    (encodeRune (unicode_ToLower L (byteVal w0))) = Ok mntRoot ->
  exploreCandidates L fs (filepath_Join ["/mnt"; mntRoot])
    (normalizeSegments (strings_ReplaceAll rest "\" "/")) = Ok cands ->
  cands <> [] ->
  exists c,
    In c cands
    /\ (forall c', In c' cands -> candFirst c c')
    /\ resolveWindowsPath L fs win = Done (Ok (fullPath c)).
Proof.
  intros -> Hpick Hexp Hne.
  destruct (sort_SliceStable_first candLess candLess_asym candLess_negtrans
              {| fullPath := ""; score := 0 |} cands Hne) as [Hin Hmin].
  eexists. split; [exact Hin|]. split.
  - intros c' Hc'. apply candLess_false_first. now apply Hmin.
  - unfold resolveWindowsPath. rewrite Hpick, Hexp.
    destruct cands; [congruence|]. reflexivity.
Qed.

(** C1.  When the Explorer returns a list of candidates that is not empty,
    [resolveWindowsPath] returns the full path of a candidate of the list
    that comes no later than any other in the order: score descending, then
    full path ascending byte by byte.  In particular, of two candidates
    with equal scores, [/mnt/c/USERS] comes before [/mnt/c/Users]: an
    uppercase letter is smaller than a lowercase one. *)
Theorem resolveWindowsPath_returns_first
  (win rest mntRoot : string) (w0 w1 : ascii) (cands : list candidate) :
  win = String w0 (String w1 rest) ->
  pickCaseInsensitiveEntry L fs "/mnt"
    (encodeRune (unicode_ToLower L (byteVal w0))) = Ok mntRoot ->
  exploreCandidates L fs (filepath_Join ["/mnt"; mntRoot])
    (normalizeSegments (strings_ReplaceAll rest "\" "/")) = Ok cands ->
  cands <> [] ->
  (exists c,
      In c cands
      /\ (forall c', In c' cands -> candFirst c c')
      /\ resolveWindowsPath L fs win = Done (Ok (fullPath c)))
  /\ (forall s : Z,
         candLess {| fullPath := "/mnt/c/USERS"; score := s |}
                  {| fullPath := "/mnt/c/Users"; score := s |} = true).
Proof.
  intros Hwin Hpick Hexp Hne. split.
  - now apply (select_first_candidate win rest mntRoot w0 w1).
  - intros s. unfold candLess; cbn [score fullPath].
    rewrite Z.eqb_refl. reflexivity.
Qed.

End Selector.

Lemma resolveWindowsPath_returns_first_witness :
  resolveWindowsPath Fixture.lib Fixture.usersFS "C:\UsERs"
  = Done (Ok "/mnt/c/USERS").
Proof.
  destruct (resolveWindowsPath_returns_first Fixture.lib Fixture.usersFS
              "C:\UsERs" "\UsERs" "c" "C" ":"
              [{| fullPath := "/mnt/c/USERS"; score := 3 |};
               {| fullPath := "/mnt/c/Users"; score := 3 |}]
              eq_refl eq_refl eq_refl ltac:(discriminate))
    as [(c & Hin & Hfirst & Hres) _].
  rewrite Hres. do 2 f_equal.
  assert (Hc : c = {| fullPath := "/mnt/c/USERS"; score := 3 |}).
  { apply candFirst_antisym; [apply Hfirst; now left|].
    destruct Hin as [<-|[<-|[]]].
    - right. split; reflexivity.
    - right. split; reflexivity. }
  now rewrite Hc.
Defined.

(* ----------------------------------------------------------------- *)
(** ** The Mount Root Locator *)

Section Locator.

Context (L : GoLib) (fs : FileSystem).

Lemma pickMatches_acc (want : string) (ents : list DirEntry) (acc : list pair) :
  fold_left
    (fun matches e =>
       let n := Name e in
       if strings_EqualFold L n want
       then (matches ++ [{| pairName := n; pairScore := caseScore want n |}])%list
       else matches)
    ents acc
  = (acc ++ map (fun e => {| pairName := Name e;
                             pairScore := caseScore want (Name e) |})
                (filter (fun e => strings_EqualFold L (Name e) want) ents))%list.
Proof.
  revert acc; induction ents as [|e ents IH]; intros acc; simpl.
  - now rewrite app_nil_r.
  - destruct (strings_EqualFold L (Name e) want); rewrite IH; simpl.
    + now rewrite <- app_assoc.
    + reflexivity.
Qed.

Lemma pickMatches_filter (want : string) (ents : list DirEntry) :
  pickMatches L want ents
  = map (fun e => {| pairName := Name e; pairScore := caseScore want (Name e) |})
        (filter (fun e => strings_EqualFold L (Name e) want) ents).
Proof.
  unfold pickMatches. now rewrite pickMatches_acc.
Qed.

(** C7.  When the mount parent [dir] can be listed, the Mount Root Locator
    collects the entries whose names equal the label [want] under case
    folding.  If there is one, it returns the name of a collected entry that
    comes no later than any other in the order score descending, then name
    ascending.  If there is none, it returns the lowercase label exactly
    when [os.Stat] finds [dir/label] to be a directory, and fails with the
    no-match error otherwise. *)
Theorem pickCaseInsensitiveEntry_spec (dir want : string) (ents : list DirEntry) :
  os_ReadDir fs dir = Ok ents ->
  let matches :=
    map (fun e => {| pairName := Name e; pairScore := caseScore want (Name e) |})
        (filter (fun e => strings_EqualFold L (Name e) want) ents) in
  (matches <> [] ->
   exists m, In m matches
             /\ (forall m', In m' matches -> pairFirst m m')
             /\ pickCaseInsensitiveEntry L fs dir want = Ok (pairName m))
  /\ (matches = [] ->
      pickCaseInsensitiveEntry L fs dir want
      = if statIsDir fs (filepath_Join [dir; strings_ToLower L want])
        then Ok (strings_ToLower L want)
        else Err ("no match for " ++ want ++ " in " ++ dir)).
Proof.
  intros Hread matches. unfold pickCaseInsensitiveEntry.
  rewrite Hread, pickMatches_filter. fold matches. split.
  - intros Hne.
    destruct (sort_SliceStable_first pairLess pairLess_asym pairLess_negtrans
                {| pairName := ""; pairScore := 0 |} matches Hne) as [Hin Hmin].
    eexists. split; [exact Hin|]. split.
    + intros m' Hm'. apply pairLess_false_first. now apply Hmin.
    + destruct matches; [congruence|]. reflexivity.
  - intros ->. cbn [List.length Nat.eqb]. unfold statIsDir.
    destruct (os_Stat fs _) as [st|e]; [destruct (fiIsDir st)|]; reflexivity.
Qed.

End Locator.

Lemma pickCaseInsensitiveEntry_spec_witness :
  pickCaseInsensitiveEntry Fixture.lib Fixture.usersFS "/mnt/c" "users"
  = Ok "Users"
  /\ pickCaseInsensitiveEntry Fixture.lib Fixture.usersFS "/mnt/c/Users" "x"
     = Err "no match for x in /mnt/c/Users".
Proof.
  split.
  - destruct (proj1 (pickCaseInsensitiveEntry_spec Fixture.lib Fixture.usersFS
                       "/mnt/c" "users" _ eq_refl) ltac:(discriminate))
      as (m & Hin & Hfirst & Hres).
    rewrite Hres. f_equal.
    destruct Hin as [<-|[<-|[]]]; [|reflexivity].
    specialize (Hfirst {| pairName := "Users"; pairScore := 4 |}
                       (or_intror (or_introl eq_refl))).
    destruct Hfirst as [H|[H _]]; vm_compute in H; discriminate H.
  - exact (proj2 (pickCaseInsensitiveEntry_spec Fixture.lib Fixture.usersFS
                    "/mnt/c/Users" "x" _ eq_refl) eq_refl).
Defined.

(* ----------------------------------------------------------------- *)
(** ** The directory test *)

(** [isDirFollowSymlink] answers [true] without an error exactly for the
    entries that are directories themselves and for those whose path
    [os.Stat] finds to be a directory: symbolic links to directories. *)
Lemma isDirFollowSymlink_resolvesToDir (fs : FileSystem) (parent : string)
  (e : DirEntry) :
  match isDirFollowSymlink fs (filepath_Join [parent; Name e]) e with
  | Ok true => true
  | _ => false
  end = resolvesToDir fs parent e.
Proof.
  unfold isDirFollowSymlink, resolvesToDir, statIsDir.
  destruct (IsDir e); [reflexivity|]. cbn [orb].
  destruct (os_Stat fs _) as [info|err]; [|reflexivity].
  destruct (fiIsDir info); reflexivity.
Qed.

Lemma resolvesToDir_cases (fs : FileSystem) (parent : string) (e : DirEntry) :
  resolvesToDir fs parent e = true
  <-> IsDir e = true
      \/ exists info,
          os_Stat fs (filepath_Join [parent; Name e]) = Ok info
          /\ fiIsDir info = true.
Proof.
  unfold resolvesToDir, statIsDir. rewrite orb_true_iff.
  split; (intros [H|H]; [now left|right]).
  - destruct (os_Stat fs _) as [info|err]; [now exists info|discriminate].
  - destruct H as (info & -> & H). exact H.
Qed.

(** A regular file, a broken link and a link to a file do not resolve to
    a directory. *)
Lemma resolvesToDir_not (fs : FileSystem) (parent : string) (e : DirEntry) :
  IsDir e = false ->
  (forall info, os_Stat fs (filepath_Join [parent; Name e]) = Ok info ->
                fiIsDir info = false) ->
  isDirFollowSymlink fs (filepath_Join [parent; Name e]) e <> Ok true
  /\ resolvesToDir fs parent e = false.
Proof.
  intros Hde Hst. unfold isDirFollowSymlink, resolvesToDir, statIsDir.
  rewrite Hde. cbn [orb].
  destruct (os_Stat fs _) as [info|err]; [|split; [discriminate|reflexivity]].
  rewrite (Hst info eq_refl). split; [discriminate|reflexivity].
Qed.

(* ----------------------------------------------------------------- *)
(** ** The Segmented Candidate Explorer *)

Section Explorer.

Context (L : GoLib) (fs : FileSystem).

Lemma exploreMatches_acc (dir seg : string) (ents : list DirEntry)
  (acc : list matchEntry) :
  fold_left
    (fun ms e =>
       let n := Name e in
       if negb (strings_EqualFold L n seg) then ms
       else
         let full := filepath_Join [dir; n] in
         match isDirFollowSymlink fs full e with
         | Ok true =>
           (ms ++ [{| matchName := n; matchScore := caseScore seg n;
                      matchPath := full |}])%list
         | _ => ms
         end)
    ents acc
  = (acc ++ map (matchOf dir seg)
                (filter (fun e => strings_EqualFold L (Name e) seg
                                  && resolvesToDir fs dir e) ents))%list.
Proof.
  revert acc; induction ents as [|e ents IH]; intros acc; simpl.
  - now rewrite app_nil_r.
  - rewrite <- (isDirFollowSymlink_resolvesToDir fs dir e).
    destruct (strings_EqualFold L (Name e) seg); simpl;
      [destruct (isDirFollowSymlink fs _ e) as [[|]|]|]; rewrite IH; simpl;
      try reflexivity.
    now rewrite <- app_assoc.
Qed.

Lemma exploreMatches_filter (dir seg : string) (ents : list DirEntry) :
  exploreMatches L fs dir seg ents
  = map (matchOf dir seg)
        (filter (fun e => strings_EqualFold L (Name e) seg
                          && resolvesToDir fs dir e) ents).
Proof.
  unfold exploreMatches. now rewrite exploreMatches_acc.
Qed.

(** The search never fails, and appends to [results] what [emitted]
    lists. *)
Lemma dfs_emitted (rest : list string) :
  forall (dir : string) (sc : Z) (results : list candidate),
    dfs L fs rest dir sc results = Ok (results ++ emitted L fs rest dir sc)%list.
Proof.
  induction rest as [|seg rest IH]; intros dir sc results.
  - simpl. unfold statIsDir.
    destruct (os_Stat fs dir) as [info|e]; [destruct (fiIsDir info)|];
      now rewrite ?app_nil_r.
  - cbn [dfs emitted].
    destruct (os_ReadDir fs dir) as [ents|e]; [|now rewrite app_nil_r].
    generalize (exploreMatches L fs dir seg ents) as ms. intros ms.
    match goal with
    | |- (if _ then _ else ?each _ _) = _ =>
      assert (Heach : forall ms results,
                 each ms results
                 = Ok (results
                       ++ flat_map (fun m => emitted L fs rest (matchPath m)
                                                     (sc + matchScore m)) ms)%list)
    end.
    { clear ms results. induction ms as [|m ms IHms]; intros results.
      - simpl. now rewrite app_nil_r.
      - rewrite IH, IHms. cbn [flat_map]. now rewrite app_assoc. }
    rewrite Heach. destruct ms; [now rewrite app_nil_r|reflexivity].
Qed.

Lemma exploreCandidates_emitted (root : string) (segs : list string) :
  exploreCandidates L fs root segs = Ok (emitted L fs segs root 0).
Proof.
  unfold exploreCandidates. destruct segs as [|seg segs].
  - simpl. unfold statIsDir.
    destruct (os_Stat fs root) as [info|e]; [destruct (fiIsDir info)|];
      reflexivity.
  - cbn [List.length Nat.eqb]. now rewrite dfs_emitted.
Qed.

Lemma emitted_Reached (rest : list string) :
  forall (dir : string) (sc : Z) (c : candidate),
    In c (emitted L fs rest dir sc) <-> Reached L fs rest dir sc c.
Proof.
  induction rest as [|seg rest IH]; intros dir sc c.
  - simpl. split.
    + destruct (statIsDir fs dir) eqn:Hst; [|intros []].
      intros [<-|[]]. now constructor.
    + intros H. inversion H; subst. rewrite H0. now left.
  - cbn [emitted]. split.
    + destruct (os_ReadDir fs dir) as [ents|e] eqn:Hread; [|intros []].
      rewrite in_flat_map. intros (m & Hm & Hc).
      rewrite exploreMatches_filter, in_map_iff in Hm.
      destruct Hm as (e & <- & He). apply filter_In in He.
      destruct He as [Hin Hcond]. apply andb_prop in Hcond.
      destruct Hcond as [Hfold Hdir].
      apply (Reached_down L fs seg rest dir sc ents e c); try assumption.
      apply IH. exact Hc.
    + intros H. inversion H as [|? ? ? ? ents e ? Hread Hin Hfold Hdir Hrest];
        subst. rewrite Hread. apply in_flat_map.
      exists (matchOf dir seg e). split.
      * rewrite exploreMatches_filter. apply in_map, filter_In.
        split; [assumption|]. now rewrite Hfold, Hdir.
      * apply IH. exact Hrest.
Qed.

Lemma Reached_statIsDir (rest : list string) (dir : string) (sc : Z)
  (c : candidate) :
  Reached L fs rest dir sc c -> statIsDir fs (fullPath c) = true.
Proof.
  induction 1; [assumption|assumption].
Qed.

(** C6.  Every candidate the Explorer emits is reached from the root by a
    chain of listed entries, one for each segment, each of which resolved,
    following symbolic links, to a directory (the entry is a directory, or
    [os.Stat] finds its path to be one: [resolvesToDir]); and [os.Stat]
    found the full path of the candidate to be an existing directory. *)
Theorem exploreCandidates_sound (root : string) (segs : list string)
  (cands : list candidate) (c : candidate) :
  exploreCandidates L fs root segs = Ok cands ->
  In c cands ->
  Reached L fs segs root 0 c
  /\ exists info, os_Stat fs (fullPath c) = Ok info /\ fiIsDir info = true.
Proof.
  rewrite exploreCandidates_emitted. intros [= <-] Hin.
  apply emitted_Reached in Hin. split; [exact Hin|].
  apply Reached_statIsDir in Hin. unfold statIsDir in Hin.
  destruct (os_Stat fs (fullPath c)) as [info|e]; [|discriminate].
  now exists info.
Qed.

Lemma resolveWindowsPath_emitted (w0 w1 : ascii) (rest mntRoot : string)
  (c : candidate) :
  pickCaseInsensitiveEntry L fs "/mnt"
    (encodeRune (unicode_ToLower L (byteVal w0))) = Ok mntRoot ->
  In c (emitted L fs (normalizeSegments (strings_ReplaceAll rest "\" "/"))
                (filepath_Join ["/mnt"; mntRoot]) 0) ->
  exists c',
    In c' (emitted L fs (normalizeSegments (strings_ReplaceAll rest "\" "/"))
                   (filepath_Join ["/mnt"; mntRoot]) 0)
    /\ (forall x,
           In x (emitted L fs (normalizeSegments (strings_ReplaceAll rest "\" "/"))
                         (filepath_Join ["/mnt"; mntRoot]) 0) ->
           candFirst c' x)
    /\ resolveWindowsPath L fs (String w0 (String w1 rest))
       = Done (Ok (fullPath c')).
Proof.
  intros Hpick Hin.
  destruct (select_first_candidate L fs _ rest mntRoot w0 w1 _
              eq_refl Hpick (exploreCandidates_emitted _ _))
    as (c' & Hin' & Hfirst & Hres).
  - intros E. rewrite E in Hin. exact Hin.
  - now exists c'.
Qed.

(** C5.  A directory that cannot be listed ends the search below it
    without a candidate and without an error: the results are as they were.
    The Explorer as a whole never returns an error, and it emits every
    candidate that some chain of listable, matching directories reaches,
    whatever happens on the other branches; resolution then succeeds, with
    a candidate so reached that comes no later than that one in the order
    of the Selector. *)
Theorem exploreCandidates_prunes_unreadable :
  (forall (seg : string) (rest : list string) (dir : string) (sc : Z)
          (results : list candidate) (e : string),
      os_ReadDir fs dir = Err e ->
      dfs L fs (seg :: rest) dir sc results = Ok results)
  /\ (forall (root : string) (segs : list string),
         exists cands,
           exploreCandidates L fs root segs = Ok cands
           /\ forall c, Reached L fs segs root 0 c -> In c cands)
  /\ (forall (w0 w1 : ascii) (rest mntRoot : string) (c : candidate),
         pickCaseInsensitiveEntry L fs "/mnt"
           (encodeRune (unicode_ToLower L (byteVal w0))) = Ok mntRoot ->
         Reached L fs (normalizeSegments (strings_ReplaceAll rest "\" "/"))
                 (filepath_Join ["/mnt"; mntRoot]) 0 c ->
         exists c',
           Reached L fs (normalizeSegments (strings_ReplaceAll rest "\" "/"))
                   (filepath_Join ["/mnt"; mntRoot]) 0 c'
           /\ candFirst c' c
           /\ resolveWindowsPath L fs (String w0 (String w1 rest))
              = Done (Ok (fullPath c'))).
Proof.
  split; [|split].
  - intros seg rest dir sc results e Hread. cbn [dfs]. now rewrite Hread.
  - intros root segs. exists (emitted L fs segs root 0).
    split; [apply exploreCandidates_emitted|].
    intros c Hc. now apply emitted_Reached.
  - intros w0 w1 rest mntRoot c Hpick Hc. apply emitted_Reached in Hc.
    destruct (resolveWindowsPath_emitted w0 w1 rest mntRoot c Hpick Hc)
      as (c' & Hin' & Hfirst & Hres).
    exists c'. split; [now apply emitted_Reached|]. split; [now apply Hfirst|].
    exact Hres.
Qed.

End Explorer.

(** In [/mnt/c/ProjectsX] the regular file [repo] and the link [Repo] to a
    directory both match the segment [repo]; the candidate goes through
    the link. *)
Lemma exploreCandidates_sound_witness :
  (Reached Fixture.lib Fixture.linksFS ["projectsx"; "repo"] "/mnt/c" 0
           {| fullPath := "/mnt/c/ProjectsX/Repo"; score := 10 |}
   /\ exists info,
       os_Stat Fixture.linksFS "/mnt/c/ProjectsX/Repo" = Ok info
       /\ fiIsDir info = true)
  /\ resolvesToDir Fixture.linksFS "/mnt/c/ProjectsX" (Fixture.file "repo")
     = false
  /\ resolvesToDir Fixture.linksFS "/mnt/c/ProjectsX" (Fixture.file "Repo")
     = true.
Proof.
  split; [|split; reflexivity].
  exact (exploreCandidates_sound Fixture.lib Fixture.linksFS "/mnt/c"
           ["projectsx"; "repo"]
           [{| fullPath := "/mnt/c/ProjectsX/Repo"; score := 10 |}]
           {| fullPath := "/mnt/c/ProjectsX/Repo"; score := 10 |}
           eq_refl (or_introl eq_refl)).
Defined.

Lemma exploreCandidates_prunes_unreadable_witness :
  dfs Fixture.lib Fixture.lockedFS ["bar"] "/mnt/c/Foo" 2 [] = Ok []
  /\ exists c',
      Reached Fixture.lib Fixture.lockedFS ["FOO"; "bar"] "/mnt/c" 0 c'
      /\ candFirst c' {| fullPath := "/mnt/c/foo/bar"; score := 3 |}
      /\ resolveWindowsPath Fixture.lib Fixture.lockedFS "C:/FOO/bar"
         = Done (Ok (fullPath c')).
Proof.
  destruct (exploreCandidates_prunes_unreadable Fixture.lib Fixture.lockedFS)
    as (Hprune & _ & Hresolve).
  split.
  - apply (Hprune "bar" [] "/mnt/c/Foo" 2 [] "permission denied"). reflexivity.
  - apply (Hresolve "C"%char ":"%char "/FOO/bar" "c"
                    {| fullPath := "/mnt/c/foo/bar"; score := 3 |}).
    + reflexivity.
    + apply emitted_Reached. vm_compute. now left.
Defined.

(* ----------------------------------------------------------------- *)
(** ** Round trip of a path that is spelled as the directories are *)

Section RoundTrip.

Context (L : GoLib) (fs : FileSystem).

Lemma foldEq_refl (rs : list rune) : foldEq L rs rs = true.
Proof.
  induction rs as [|r rs IH]; simpl; [reflexivity|].
  now rewrite Z.eqb_refl, IH.
Qed.

Lemma foldEq_length (rs rt : list rune) :
  foldEq L rs rt = true -> List.length rs = List.length rt.
Proof.
  revert rt; induction rs as [|r rs IH]; intros [|t rt]; simpl;
    try discriminate; try reflexivity.
  intros H. apply andb_prop in H. destruct H as [_ H]. f_equal. now apply IH.
Qed.

Lemma caseScore_le_runeLen (seg n : string) : caseScore seg n <= runeLen seg.
Proof.
  rewrite caseScore_agree. unfold runeLen.
  pose proof (agree_le (runes seg) (runes n)). lia.
Qed.






End RoundTrip.





(* ----------------------------------------------------------------- *)
(** ** The Collapsed-Path Greedy Matcher *)

Lemma strings_TrimLeft_len (s cutset : string) :
  (len (strings_TrimLeft s cutset) <= len s)%nat.
Proof.
  induction s as [|c t IH]; simpl; [lia|].
  destruct (byteIn c cutset); simpl; unfold len in *; lia.
Qed.

(** A tail that is not empty and that [TrimLeft] leaves as it is does not
    start with a separator. *)
Lemma stripped_head (tail : string) :
  tail <> EmptyString -> strings_TrimLeft tail "\/" = tail ->
  exists t0 t', tail = String t0 t'
                /\ (Ascii.eqb t0 "/" || Ascii.eqb t0 "\") = false.
Proof.
  destruct tail as [|t0 t']; [congruence|]. intros _ H.
  exists t0, t'. split; [reflexivity|].
  simpl in H. rewrite orb_false_r in H.
  destruct (Ascii.eqb t0 "/") eqn:E1, (Ascii.eqb t0 "\") eqn:E2;
    simpl in *; try reflexivity;
    pose proof (strings_TrimLeft_len t' "\/") as Hlen;
    rewrite H in Hlen; unfold len in Hlen; simpl in Hlen; lia.
Qed.

Lemma sliceTo_sliceFrom (i : nat) (s : string) :
  s = sliceTo i s ++ sliceFrom i s.
Proof.
  revert s; induction i as [|i IH]; intros [|c t]; simpl; try reflexivity.
  now rewrite <- IH.
Qed.

Lemma sliceTo_len (i : nat) (s : string) :
  (i <= len s)%nat -> len (sliceTo i s) = i.
Proof.
  revert s; induction i as [|i IH]; intros [|c t]; unfold len in *; simpl;
    try lia.
  intros H. rewrite IH; lia.
Qed.

Section Collapsed.

Context (L : GoLib) (fs : FileSystem).

Lemma collapsedMatches_acc (curr tail : string) (ents : list DirEntry)
  (acc : list cand) :
  fold_left
    (fun ms e =>
       let n := Name e in
       let ln := len n in
       if (len tail <? ln)%nat then ms
       else if negb (strings_EqualFold L (sliceTo ln tail) n) then ms
       else
         let full := filepath_Join [curr; n] in
         match isDirFollowSymlink fs full e with
         | Ok true =>
           (ms ++ [{| candName := n; plen := ln;
                      candScore := caseScore (sliceTo ln tail) n |}])%list
         | _ => ms
         end)
    ents acc
  = (acc ++ map (candOf tail)
                (filter (fun e => prefixMatches L tail e
                                  && resolvesToDir fs curr e) ents))%list.
Proof.
  revert acc; induction ents as [|e ents IH]; intros acc; simpl.
  - now rewrite app_nil_r.
  - unfold prefixMatches.
    rewrite <- (isDirFollowSymlink_resolvesToDir fs curr e), Nat.ltb_antisym.
    destruct (len (Name e) <=? len tail)%nat; simpl;
      [destruct (strings_EqualFold L _ (Name e)); simpl;
       [destruct (isDirFollowSymlink fs _ e) as [[|]|]|]|];
      rewrite IH; simpl; try reflexivity.
    now rewrite <- app_assoc.
Qed.

Lemma collapsedMatches_filter (curr tail : string) (ents : list DirEntry) :
  collapsedMatches L fs curr tail ents
  = map (candOf tail)
        (filter (fun e => prefixMatches L tail e && resolvesToDir fs curr e)
                ents).
Proof.
  unfold collapsedMatches. now rewrite collapsedMatches_acc.
Qed.

(** C2, amended.  At a pass of the Greedy Matcher whose remaining tail,
    separators stripped, is not empty, and whose directory can be listed,
    the match candidates are exactly the entries of the directory whose
    name is, in bytes, no longer than the tail, equals under case folding
    the prefix of the tail of that many bytes, and resolves, following
    symbolic links, to a directory (the entry is a directory, or [os.Stat]
    finds its path to be one: [resolvesToDir]).  When there is one, the
    entry chosen comes no later than any other in the order prefix length
    descending, score descending, name ascending; the matcher goes on in
    that entry with the tail less its first [plen] bytes, [plen] being the
    length of the name in bytes. *)
Theorem collapsedIter_chooses_longest
  (curr tail : string) (ents : list DirEntry) :
  tail <> EmptyString ->
  strings_TrimLeft tail "\/" = tail ->
  os_ReadDir fs curr = Ok ents ->
  let ms :=
    map (candOf tail)
        (filter (fun e => prefixMatches L tail e && resolvesToDir fs curr e)
                ents) in
  collapsedMatches L fs curr tail ents = ms
  /\ (ms <> [] ->
      exists chosen,
        In chosen ms
        /\ (forall m, In m ms -> collapsedFirst chosen m)
        /\ collapsedIter L fs curr tail
           = Continue (filepath_Join [curr; candName chosen])
                      (sliceFrom (plen chosen) tail)
        /\ plen chosen = len (candName chosen)
        /\ tail = sliceTo (plen chosen) tail ++ sliceFrom (plen chosen) tail
        /\ len (sliceTo (plen chosen) tail) = plen chosen).
Proof.
  intros Hne Hstrip Hread ms.
  split; [apply collapsedMatches_filter|]. intros Hms.
  destruct (stripped_head tail Hne Hstrip) as (t0 & t' & Htail & Hsep).
  destruct (sort_SliceStable_first collapsedLess collapsedLess_asym
              collapsedLess_negtrans
              {| candName := ""; plen := 0; candScore := 0 |} ms Hms)
    as [Hin Hmin].
  eexists. split; [exact Hin|]. split; [|split; [|split; [|split]]].
  - intros m Hm. apply collapsedLess_false_first. now apply Hmin.
  - unfold collapsedIter. rewrite Htail, Hsep, <- Htail, Hread.
    rewrite collapsedMatches_filter. fold ms.
    destruct ms; [congruence|]. reflexivity.
  - apply in_map_iff in Hin. destruct Hin as (e & <- & _). reflexivity.
  - apply sliceTo_sliceFrom.
  - apply in_map_iff in Hin. destruct Hin as (e & <- & He).
    apply filter_In in He. destruct He as [_ He].
    apply andb_prop in He. destruct He as [He _].
    unfold prefixMatches in He. apply andb_prop in He. destruct He as [He _].
    apply Nat.leb_le in He. cbn [plen candOf]. now apply sliceTo_len.
Qed.




(** The loop returns: when no directory lists an entry with an empty name,
    every pass that goes round shortens the tail, and more passes than the
    tail has bytes are never needed. *)
Lemma collapsedIter_shortens (curr tail curr' tail' : string) :
  (forall d ents e, os_ReadDir fs d = Ok ents -> In e ents ->
                    Name e <> EmptyString) ->
  collapsedIter L fs curr tail = Continue curr' tail' ->
  (len tail' < len tail)%nat.
Proof.
  intros Hnames. unfold collapsedIter.
  destruct tail as [|t0 t'].
  { destruct (os_Stat fs curr) as [info|e];
      [destruct (fiIsDir info)|]; discriminate. }
  destruct (Ascii.eqb t0 "/" || Ascii.eqb t0 "\") eqn:Hsep.
  { intros [= _ <-]. cbn [strings_TrimLeft byteIn].
    replace (Ascii.eqb t0 "\" || (Ascii.eqb t0 "/" || false)) with true
      by (destruct (Ascii.eqb t0 "/"), (Ascii.eqb t0 "\"); simpl in *; congruence).
    pose proof (strings_TrimLeft_len t' "\/"). unfold len in *. simpl. lia. }
  destruct (os_ReadDir fs curr) as [ents|e] eqn:Hread; [|discriminate].
  rewrite collapsedMatches_filter.
  set (ms := map _ _).
  destruct ms as [|m0 ms0] eqn:Hms; [discriminate|].
  cbn [List.length Nat.eqb]. intros [= _ <-].
  destruct (sort_SliceStable_first collapsedLess collapsedLess_asym
              collapsedLess_negtrans
              {| candName := ""; plen := 0; candScore := 0 |} (m0 :: ms0))
    as [Hin _]; [discriminate|].
  set (chosen := hd _ _) in *. rewrite <- Hms in Hin. subst ms.
  apply in_map_iff in Hin. destruct Hin as (e & Hchosen & He).
  apply filter_In in He. destruct He as [Hinents He].
  apply andb_prop in He. destruct He as [He _].
  unfold prefixMatches in He. apply andb_prop in He. destruct He as [He _].
  apply Nat.leb_le in He.
  pose proof (Hnames curr ents e Hread Hinents) as Hname.
  rewrite <- Hchosen. cbn [plen candOf].
  assert (Hpos : (0 < len (Name e))%nat).
  { destruct (Name e); [congruence|unfold len; simpl; lia]. }
  pose proof (sliceTo_sliceFrom (len (Name e)) (String t0 t')) as Hsplit.
  apply (f_equal len) in Hsplit.
  assert (Happ : forall a b, len (a ++ b) = (len a + len b)%nat).
  { induction a as [|c a IHa]; intros b; unfold len in *; simpl;
      [reflexivity|now rewrite IHa]. }
  rewrite Happ, sliceTo_len in Hsplit by assumption. lia.
Qed.

Lemma collapsedLoop_returns (fuel : nat) :
  (forall d ents e, os_ReadDir fs d = Ok ents -> In e ents ->
                    Name e <> EmptyString) ->
  forall curr tail,
    (len tail < fuel)%nat ->
    exists r, collapsedLoop L fs fuel curr tail = Done r.
Proof.
  intros Hnames. induction fuel as [|fuel IH]; intros curr tail Hfuel; [lia|].
  cbn [collapsedLoop].
  destruct (collapsedIter L fs curr tail) as [r|curr' tail'] eqn:Hiter;
    [now exists r|].
  apply IH. pose proof (collapsedIter_shortens _ _ _ _ Hnames Hiter). lia.
Qed.

End Collapsed.


(** In [/mnt/c] of [linksFS] the regular file [ProjectsXr] has the longest
    name that begins the tail and is no candidate; of the three candidates
    the directory [ProjectsX] has the longest prefix, and the link
    [projects] to a directory comes after the directory [Projects] by its
    score. *)
Lemma collapsedIter_chooses_longest_witness :
  collapsedMatches Fixture.lib Fixture.linksFS "/mnt/c" "ProjectsXrepo"
    [Fixture.dir "Projects"; Fixture.dir "ProjectsX";
     Fixture.file "ProjectsXr"; Fixture.file "projects"]
  = [{| candName := "Projects"; plen := 8; candScore := 8 |};
     {| candName := "ProjectsX"; plen := 9; candScore := 9 |};
     {| candName := "projects"; plen := 8; candScore := 7 |}]
  /\ collapsedIter Fixture.lib Fixture.linksFS "/mnt/c" "ProjectsXrepo"
     = Continue "/mnt/c/ProjectsX" "repo".
Proof.
  destruct (collapsedIter_chooses_longest Fixture.lib Fixture.linksFS
              "/mnt/c" "ProjectsXrepo"
              [Fixture.dir "Projects"; Fixture.dir "ProjectsX";
               Fixture.file "ProjectsXr"; Fixture.file "projects"]
              ltac:(discriminate) eq_refl eq_refl) as [Hms H].
  split; [rewrite Hms; reflexivity|].
  destruct (H ltac:(discriminate)) as (chosen & Hin & Hfirst & Hiter & _).
  rewrite Hiter.
  assert (Hbest : collapsedFirst chosen
                    {| candName := "ProjectsX"; plen := 9; candScore := 9 |}).
  { apply Hfirst. right; now left. }
  destruct Hin as [<-|[<-|[<-|[]]]].
  - exfalso. destruct Hbest as [Hlt|[Heq _]]; cbn [plen candOf] in *;
      vm_compute in *; [lia|discriminate Heq].
  - reflexivity.
  - exfalso. destruct Hbest as [Hlt|[Heq _]]; cbn [plen candOf] in *;
      vm_compute in *; [lia|discriminate Heq].
Defined.

(** C2, as the claim has it, fails where bytes and characters differ.  The
    tail is the one character U+00E9, of two bytes, and the directory is
    named by the first of the two bytes, which is one character too
    (U+FFFD, as [strings.EqualFold] decodes it): the name equals the first
    byte of the tail under case folding, one byte is consumed, and one
    character is left of the one-character tail, not none. *)
Lemma collapsedIter_consumes_bytes :
  ~ (forall curr' tail',
       collapsedIter Fixture.lib Fixture.halfCharFS "/mnt/c" Fixture.eAcute
       = Continue curr' tail' ->
       curr' = filepath_Join ["/mnt/c"; Fixture.xC3]
       /\ runeLen tail' = runeLen Fixture.eAcute - runeLen Fixture.xC3).
Proof.
  intros H.
  destruct (H (filepath_Join ["/mnt/c"; Fixture.xC3]) Fixture.xA9 eq_refl)
    as [_ Hlen].
  vm_compute in Hlen. discriminate Hlen.
Qed.

(** In bytes the account is right on that input. *)
Example collapsedIter_half_character :
  collapsedIter Fixture.lib Fixture.halfCharFS "/mnt/c" Fixture.eAcute
  = Continue (filepath_Join ["/mnt/c"; Fixture.xC3]) Fixture.xA9
  /\ len Fixture.xA9 = (len Fixture.eAcute - len Fixture.xC3)%nat
  /\ runeLen Fixture.eAcute = 1 /\ runeLen Fixture.xC3 = 1
  /\ runeLen Fixture.xA9 = 1.
Proof. repeat split; reflexivity. Qed.

(** The collapsed-matching example of the specification, run to the end. *)
Example collapsed_Projectsrepo :
  resolveWindowsPathCollapsed Fixture.lib Fixture.projectsFS 5 "C:Projectsrepo"
  = Done (Ok "/mnt/c/Projects/Repo").
Proof. reflexivity. Qed.

(* ----------------------------------------------------------------- *)
(** ** Inputs too short for a drive path *)

Lemma runes_nonempty (c : ascii) (t : string) :
  (1 <= List.length (runes (String c t)))%nat.
Proof.
  destruct (runes_step c t) as (r & rest & -> & _). simpl. lia.
Qed.

Lemma runes_low_head (c : ascii) (t : string) :
  byteVal c < 0x80 -> runes (String c t) = byteVal c :: runes t.
Proof.
  intros H. remember t as t0. cbn [runes].
  destruct (Z.ltb_spec (byteVal c) 0x80); [reflexivity|lia].
Qed.

(** A byte below 0x80 continues no sequence: the byte before it is decoded
    by itself. *)
Lemma runes_before_low (c0 c1 : ascii) (t1 : string) :
  byteVal c1 < 0x80 ->
  exists r, runes (String c0 (String c1 t1)) = r :: runes (String c1 t1).
Proof.
  intros H. remember (String c1 t1) as t0 eqn:Ht0. cbn [runes].
  destruct (byteVal c0 <? 0x80); [now eexists|].
  destruct (acceptFirst (byteVal c0)) as [[[sz lo] hi]|] eqn:Hacc;
    [|now eexists].
  apply acceptFirst_inv in Hacc. destruct Hacc as (Hlo & _).
  destruct t0 as [|c1' t1']; [discriminate|]. injection Ht0 as -> ->.
  replace (inRange lo hi (byteVal c1)) with false; [now eexists|].
  unfold inRange. symmetry. apply andb_false_iff. left. apply Z.leb_gt. lia.
Qed.

(** A string whose second byte is a colon and that has a third byte
    decodes to three characters at least. *)
Lemma colon_second_three_runes (p0 p2 : ascii) (t : string) :
  (3 <= List.length (runes (String p0 (String ":" (String p2 t)))))%nat.
Proof.
  destruct (runes_before_low p0 ":" (String p2 t)) as [r ->];
    [vm_compute; reflexivity|].
  rewrite runes_low_head by (vm_compute; reflexivity).
  pose proof (runes_nonempty p2 t). cbn [List.length]. lia.
Qed.

Lemma short_not_drive_path (L : GoLib) (a : string) :
  (len a < 3)%nat \/ (List.length (runes a) < 3)%nat ->
  isWindowsPath L a = false /\ looksLikeWindowsDriveNoSlash L a = false.
Proof.
  intros H.
  destruct a as [|p0 [|p1 [|p2 t]]]; try (split; reflexivity).
  unfold isWindowsPath, looksLikeWindowsDriveNoSlash.
  destruct (Ascii.eqb_spec p1 ":") as [->|Hp1].
  - pose proof (colon_second_three_runes p0 p2 t).
    destruct H as [H|H]; [unfold len in H; simpl in H; lia|lia].
  - cbn [negb]. rewrite orb_true_r.
    destruct (unicode_IsLetter L (byteVal p0)); split; reflexivity.
Qed.

Lemma isAbs_inv (p : string) : isAbs p = true -> exists t, p = String "/" t.
Proof.
  unfold isAbs, strings_HasPrefix.
  destruct p as [|c t]; cbn [String.prefix]; [discriminate|].
  destruct (ascii_dec "/" c) as [E|]; [|discriminate]. subst c. now exists t.
Qed.

Lemma isAbs_slash (t : string) : isAbs (String "/" t) = true.
Proof.
  unfold isAbs, strings_HasPrefix. cbn [String.prefix].
  destruct (ascii_dec "/" "/"); [destruct t; reflexivity|congruence].
Qed.

Section Short.

Context (L : GoLib) (fs : FileSystem).

(** What the last part of [ResolveTarget] answers, branch by branch of
    [resolveLinuxLike]. *)
Lemma resolveLinuxTarget_verifyDir (a cwd home : string) :
  Done (resolveLinuxTarget fs a cwd home)
  = if (a =? "~")%string then
      if (home =? "")%string then Done (Err "error: HOME is not set")
      else verifyDir fs (filepath_Clean home)
    else if strings_HasPrefix a "~/" then
      if (home =? "")%string then Done (Err "error: HOME is not set")
      else verifyDir fs (filepath_Clean (filepath_Join [home; sliceFrom 2 a]))
    else if isAbs a then verifyDir fs (filepath_Clean a)
    else verifyDir fs (filepath_Clean (filepath_Join [cwd; a])).
Proof.
  assert (Hv : forall p,
             Done match os_Stat fs p with
                  | Err e => Err ("error: " ++ e)
                  | Ok info =>
                    if negb (fiIsDir info)
                    then Err ("error: not a directory: " ++ p) else Ok p
                  end = verifyDir fs p).
  { intros p. unfold verifyDir. destruct (os_Stat fs p) as [info|e];
      [destruct (fiIsDir info)|]; reflexivity. }
  unfold resolveLinuxTarget, resolveLinuxLike, isAbs.
  destruct (a =? "~")%string.
  { destruct (home =? "")%string; [reflexivity|apply Hv]. }
  destruct (strings_HasPrefix a "~/").
  { destruct (home =? "")%string; [reflexivity|apply Hv]. }
  destruct (strings_HasPrefix a "/"); apply Hv.
Qed.

(** C10, amended.  For every input whose trimmed form is not empty and is
    shorter than 3, in bytes or in characters, neither classifier accepts
    it, and [ResolveTarget] resolves it as a Linux path: an absolute input
    cleaned, [~] and an input that begins with [~/] from the home
    directory, which must be set, and every other input joined to the
    working directory supplied and cleaned; the answer is that path when
    [os.Stat] finds it to be a directory, and an error when not
    ([verifyDir]).  No directory is listed, [/mnt] or other: the result is
    the same on every file system on which [os.Stat] answers the same. *)
Theorem ResolveTarget_short_is_linux (fuel : nat) (arg cwd home : string) :
  let a := strings_TrimSpace L arg in
  (len a < 3)%nat \/ (List.length (runes a) < 3)%nat ->
  a <> EmptyString ->
  isWindowsPath L a = false
  /\ looksLikeWindowsDriveNoSlash L a = false
  /\ ResolveTarget L fs fuel arg cwd home
     = Done (resolveLinuxTarget fs a cwd home)
  /\ (isAbs a = false -> a <> "~" -> strings_HasPrefix a "~/" = false ->
      ResolveTarget L fs fuel arg cwd home
      = verifyDir fs (filepath_Clean (filepath_Join [cwd; a])))
  /\ (isAbs a = true ->
      ResolveTarget L fs fuel arg cwd home = verifyDir fs (filepath_Clean a))
  /\ (a = "~" ->
      ResolveTarget L fs fuel arg cwd home
      = if (home =? "")%string then Done (Err "error: HOME is not set")
        else verifyDir fs (filepath_Clean home))
  /\ (strings_HasPrefix a "~/" = true ->
      ResolveTarget L fs fuel arg cwd home
      = if (home =? "")%string then Done (Err "error: HOME is not set")
        else verifyDir fs
               (filepath_Clean (filepath_Join [home; sliceFrom 2 a])))
  /\ forall fs' : FileSystem,
      (forall p, os_Stat fs' p = os_Stat fs p) ->
      ResolveTarget L fs' fuel arg cwd home
      = ResolveTarget L fs fuel arg cwd home.
Proof.
  intros a Hshort Hne.
  destruct (short_not_drive_path L a Hshort) as [Hwin Hcol].
  assert (Hres : forall fs0, ResolveTarget L fs0 fuel arg cwd home
                             = Done (resolveLinuxTarget fs0 a cwd home)).
  { intros fs0. unfold ResolveTarget. fold a.
    destruct (String.eqb_spec a ""); [congruence|].
    now rewrite Hwin, Hcol. }
  split; [exact Hwin|]. split; [exact Hcol|]. split; [apply Hres|].
  split; [|split; [|split; [|split]]].
  - intros Habs Htilde Hhome.
    rewrite Hres, resolveLinuxTarget_verifyDir, Hhome, Habs.
    destruct (String.eqb_spec a "~"); [contradiction|reflexivity].
  - intros Habs.
    rewrite Hres, resolveLinuxTarget_verifyDir, Habs.
    destruct (isAbs_inv a Habs) as [t Ht]. rewrite Ht.
    destruct t as [|c t]; reflexivity.
  - intros Htilde.
    rewrite Hres, resolveLinuxTarget_verifyDir, Htilde. reflexivity.
  - intros Hhome.
    rewrite Hres, resolveLinuxTarget_verifyDir, Hhome.
    destruct (String.eqb_spec a "~") as [E|_]; [|reflexivity].
    rewrite E in Hhome. discriminate Hhome.
  - intros fs' Hstat. rewrite !Hres. f_equal.
    unfold resolveLinuxTarget.
    destruct (resolveLinuxLike a cwd home) as [p|e]; [|reflexivity].
    now rewrite Hstat.
Qed.

End Short.

(** The input [c] names the directory [c] of the working directory
    [/home/u], not the drive [/mnt/c], which exists as well. *)
Lemma ResolveTarget_short_is_linux_witness :
  ResolveTarget Fixture.lib Fixture.homeFS 0 " c " "/home/u" "/root"
  = Done (Ok "/home/u/c")
  /\ statIsDir Fixture.homeFS "/mnt/c" = true.
Proof.
  split; [|reflexivity].
  assert (Hshort : (len (strings_TrimSpace Fixture.lib " c ") < 3)%nat)
    by (vm_compute; lia).
  assert (Hne : strings_TrimSpace Fixture.lib " c " <> EmptyString)
    by discriminate.
  destruct (ResolveTarget_short_is_linux Fixture.lib Fixture.homeFS 0
              " c " "/home/u" "/root" (or_introl Hshort) Hne)
    as (_ & _ & _ & Hrel & _).
  rewrite Hrel; [reflexivity|reflexivity|discriminate|reflexivity].
Defined.

(** The parent of the working directory, and the home directory. *)
Example ResolveTarget_dot_dot :
  ResolveTarget Fixture.lib Fixture.usersFS 0 " .. " "/mnt/c/Users" "/root"
  = Done (Ok "/mnt/c").
Proof. reflexivity. Qed.

Example ResolveTarget_tilde :
  ResolveTarget Fixture.lib Fixture.homeFS 0 "~" "/mnt/c" "/home/u"
  = Done (Ok "/home/u")
  /\ ResolveTarget Fixture.lib Fixture.homeFS 0 "~" "/mnt/c" ""
     = Done (Err "error: HOME is not set").
Proof. split; reflexivity. Qed.

(** C10, as the claim has it, fails on the input whose trimmed form is
    empty: [ResolveTarget] rejects it, whereas a Linux path that is empty
    resolves to the working directory. *)
Lemma ResolveTarget_empty_not_linux :
  ~ ((len (strings_TrimSpace Fixture.lib "") < 3)%nat ->
     ResolveTarget Fixture.lib Fixture.usersFS 0 "" "/mnt" "/root"
     = Done (resolveLinuxTarget Fixture.usersFS
               (strings_TrimSpace Fixture.lib "") "/mnt" "/root")).
Proof.
  intros H. assert (Hlen : (len (strings_TrimSpace Fixture.lib "") < 3)%nat).
  { vm_compute. lia. }
  specialize (H Hlen). vm_compute in H. discriminate H.
Qed.

(** What [ResolveTarget] does on that input, and on the bare drive string. *)
Example ResolveTarget_blank_input :
  ResolveTarget Fixture.lib Fixture.usersFS 0 "" "/mnt" "/root"
  = Done (Err "error: missing target directory").
Proof. reflexivity. Qed.

Example ResolveTarget_bare_drive :
  ResolveTarget Fixture.lib Fixture.usersFS 0 "C:" "/mnt" "/root"
  = Done (Err "error: no such file or directory").
Proof. reflexivity. Qed.

(* ----------------------------------------------------------------- *)
(** ** The classifiers of the input *)

(** X1.  No input is both a separator-using and a collapsed drive path;
    an input of three bytes or more is one of the two exactly when its
    first byte is a letter and its second a colon, and which of the two is
    decided by whether the third byte is a separator. *)
Theorem classifiers_partition (L : GoLib) (p : string) :
  isWindowsPath L p && looksLikeWindowsDriveNoSlash L p = false
  /\ forall p0 p1 p2 t,
      p = String p0 (String p1 (String p2 t)) ->
      isWindowsPath L p
      = unicode_IsLetter L (byteVal p0) && Ascii.eqb p1 ":"
        && (Ascii.eqb p2 "\" || Ascii.eqb p2 "/")
      /\ looksLikeWindowsDriveNoSlash L p
         = unicode_IsLetter L (byteVal p0) && Ascii.eqb p1 ":"
           && negb (Ascii.eqb p2 "\" || Ascii.eqb p2 "/").
Proof.
  split.
  - destruct p as [|p0 [|p1 [|p2 t]]]; try reflexivity.
    unfold isWindowsPath, looksLikeWindowsDriveNoSlash.
    destruct (unicode_IsLetter L (byteVal p0)), (Ascii.eqb p1 ":"),
      (Ascii.eqb p2 "\"), (Ascii.eqb p2 "/"); reflexivity.
  - intros p0 p1 p2 t ->.
    unfold isWindowsPath, looksLikeWindowsDriveNoSlash.
    destruct (unicode_IsLetter L (byteVal p0)), (Ascii.eqb p1 ":"),
      (Ascii.eqb p2 "\"), (Ascii.eqb p2 "/"); split; reflexivity.
Qed.

Lemma classifiers_partition_witness :
  isWindowsPath Fixture.lib "C:\Users" = true
  /\ looksLikeWindowsDriveNoSlash Fixture.lib "C:\Users" = false.
Proof.
  destruct (proj2 (classifiers_partition Fixture.lib "C:\Users")
                  "C"%char ":"%char "\"%char "Users" eq_refl) as [H1 H2].
  rewrite H1, H2. split; reflexivity.
Defined.

(* ----------------------------------------------------------------- *)
(** ** The normalization of the segments *)

Lemma strings_Split_nonempty (sep : ascii) (s : string) :
  strings_Split sep s <> [].
Proof.
  destruct s as [|c t]; simpl; [discriminate|].
  destruct (Ascii.eqb c sep); [discriminate|].
  destruct (strings_Split sep t); discriminate.
Qed.

(** No part holds the separator, and a part holds no byte that the string
    split does not hold. *)
Lemma strings_Split_parts (sep : ascii) (s part : string) :
  In part (strings_Split sep s) ->
  byteIn sep part = false
  /\ forall c, byteIn c part = true -> byteIn c s = true.
Proof.
  revert part; induction s as [|c t IH]; intros part; simpl.
  - intros [<-|[]]. split; [reflexivity|]. intros c H. exact H.
  - destruct (Ascii.eqb_spec c sep) as [->|Hc].
    + intros [<-|Hin]; [split; [reflexivity|discriminate]|].
      destruct (IH part Hin) as [H1 H2]. split; [exact H1|].
      intros d Hd. rewrite (H2 d Hd). apply orb_true_r.
    + destruct (strings_Split sep t) as [|h r] eqn:Hs.
      * intros [<-|[]]. simpl. rewrite orb_false_r.
        split.
        -- apply Ascii.eqb_neq. congruence.
        -- intros d Hd. rewrite orb_false_r in Hd. now rewrite Hd.
      * intros [<-|Hin].
        -- destruct (IH h (or_introl eq_refl)) as [H1 H2]. split.
           ++ simpl. rewrite H1, orb_false_r. apply Ascii.eqb_neq. congruence.
           ++ intros d Hd. simpl in Hd. apply orb_prop in Hd.
              destruct Hd as [Hd|Hd]; [now rewrite Hd|].
              rewrite (H2 d Hd). apply orb_true_r.
        -- destruct (IH part (or_intror Hin)) as [H1 H2]. split; [exact H1|].
           intros d Hd. rewrite (H2 d Hd). apply orb_true_r.
Qed.

Lemma strings_ReplaceAll_removes (s : string) (old new : ascii) :
  old <> new -> byteIn old (strings_ReplaceAll s old new) = false.
Proof.
  intros Hne. induction s as [|c t IH]; simpl; [reflexivity|].
  rewrite IH, orb_false_r.
  destruct (Ascii.eqb_spec c old) as [->|Hc]; apply Ascii.eqb_neq; congruence.
Qed.

Lemma Forall_removelast {A : Type} (P : A -> Prop) (l : list A) :
  Forall P l -> Forall P (removelast l).
Proof.
  induction 1 as [|x l Hx Hl IH]; simpl; [constructor|].
  destruct l; [constructor|]. now constructor.
Qed.

Lemma normStep_plain (segs : list string) (s : string) :
  byteIn "/" s = false -> byteIn "\" s = false ->
  Forall (fun x => plainSegment x = true) segs ->
  Forall (fun x => plainSegment x = true) (normStep segs s).
Proof.
  intros Hs Hb Hsegs. unfold normStep.
  destruct (String.eqb_spec s ""); [assumption|].
  destruct (String.eqb_spec s "."); [assumption|].
  destruct (String.eqb_spec s "..").
  - destruct (0 <? List.length segs)%nat; [now apply Forall_removelast|assumption].
  - apply Forall_app. split; [assumption|]. constructor; [|constructor].
    unfold plainSegment. rewrite Hs, Hb.
    rewrite (proj2 (String.eqb_neq s "")), (proj2 (String.eqb_neq s ".")),
      (proj2 (String.eqb_neq s "..")) by assumption. reflexivity.
Qed.

(** X2.  Whatever follows the drive of a separator-using drive path, the
    segments [resolveWindowsPath] works with are plain names: none is
    empty, [.] or [..], and none holds a slash or a backslash. *)
Theorem normalizeSegments_plain (rest : string) :
  Forall (fun s => plainSegment s = true)
         (normalizeSegments (strings_ReplaceAll rest "\" "/")).
Proof.
  unfold normalizeSegments.
  assert (Hparts : forall part,
             In part (strings_Split "/" (strings_ReplaceAll rest "\" "/")) ->
             byteIn "/" part = false /\ byteIn "\" part = false).
  { intros part Hin. destruct (strings_Split_parts _ _ _ Hin) as [H1 H2].
    split; [exact H1|].
    destruct (byteIn "\" part) eqn:E; [|reflexivity].
    specialize (H2 _ E).
    rewrite strings_ReplaceAll_removes in H2 by discriminate. discriminate. }
  revert Hparts.
  generalize (strings_Split "/" (strings_ReplaceAll rest "\" "/")) as parts.
  assert (Hnil : Forall (fun s => plainSegment s = true) (@nil string))
    by constructor.
  revert Hnil. generalize (@nil string) as segs.
  intros segs Hsegs parts; revert segs Hsegs.
  induction parts as [|part parts IH]; intros segs Hsegs Hparts; simpl.
  - exact Hsegs.
  - apply IH.
    + destruct (Hparts part (or_introl eq_refl)). now apply normStep_plain.
    + intros q Hq. apply Hparts. now right.
Qed.

Lemma strings_Split_app (sep : ascii) (a b : string) :
  strings_Split sep (a ++ String sep b)
  = (strings_Split sep a ++ strings_Split sep b)%list.
Proof.
  induction a as [|c a IH]; simpl.
  - now rewrite Ascii.eqb_refl.
  - destruct (Ascii.eqb c sep); [now rewrite IH|].
    rewrite IH. pose proof (strings_Split_nonempty sep a) as Hne.
    destruct (strings_Split sep a) as [|h r]; [congruence|]. reflexivity.
Qed.

Lemma strings_Split_plain (sep : ascii) (s : string) :
  byteIn sep s = false -> strings_Split sep s = [s].
Proof.
  induction s as [|c t IH]; simpl; [reflexivity|].
  intros H. apply orb_false_elim in H. destruct H as [H1 H2].
  rewrite Ascii.eqb_sym in H1. rewrite H1, (IH H2). reflexivity.
Qed.

Lemma normalizeSegments_app (a b : string) :
  normalizeSegments (a ++ String "/" b)
  = fold_left normStep (strings_Split "/" b) (normalizeSegments a).
Proof.
  unfold normalizeSegments. now rewrite strings_Split_app, fold_left_app.
Qed.

(** X3.  How the segments grow with the path: a trailing separator and a
    trailing [.] add nothing; a trailing [..] removes the last segment, and
    nothing when there is none; a plain name [s] is added as the last
    segment, so that [s/..] at the end adds nothing. *)
Theorem normalizeSegments_extend (a s : string) :
  plainSegment s = true ->
  normalizeSegments (a ++ "/") = normalizeSegments a
  /\ normalizeSegments (a ++ "/.") = normalizeSegments a
  /\ normalizeSegments (a ++ "/..") = removelast (normalizeSegments a)
  /\ normalizeSegments "/.." = []
  /\ normalizeSegments (a ++ "/" ++ s) = (normalizeSegments a ++ [s])%list
  /\ normalizeSegments ((a ++ "/" ++ s) ++ "/..") = normalizeSegments a.
Proof.
  intros Hs. unfold plainSegment in Hs.
  repeat (apply andb_prop in Hs; destruct Hs as [Hs ?]).
  repeat match goal with
         | H : negb _ = true |- _ => apply negb_true_iff in H
         end.
  assert (Hpop : forall x, normalizeSegments (x ++ "/..")
                           = removelast (normalizeSegments x)).
  { intros x. change (x ++ "/..") with (x ++ String "/" "..").
    rewrite normalizeSegments_app. simpl. unfold normStep. simpl.
    destruct (normalizeSegments x); reflexivity. }
  assert (Hpush : normalizeSegments (a ++ "/" ++ s)
                  = (normalizeSegments a ++ [s])%list).
  { change (a ++ "/" ++ s) with (a ++ String "/" s).
    rewrite normalizeSegments_app, strings_Split_plain by assumption.
    simpl. unfold normStep.
    match goal with
    | H1 : (s =? "")%string = false, H2 : (s =? ".")%string = false,
      H3 : (s =? "..")%string = false |- _ => now rewrite H1, H2, H3
    end. }
  split; [|split; [|split; [|split; [|split]]]].
  - change (a ++ "/") with (a ++ String "/" "").
    now rewrite normalizeSegments_app.
  - change (a ++ "/.") with (a ++ String "/" ".").
    now rewrite normalizeSegments_app.
  - apply Hpop.
  - reflexivity.
  - exact Hpush.
  - rewrite Hpop, Hpush. apply removelast_last.
Qed.

Lemma normalizeSegments_extend_witness :
  normalizeSegments ("/Users/me" ++ "/" ++ "tmp") = ["Users"; "me"; "tmp"]
  /\ normalizeSegments (("/Users/me" ++ "/" ++ "tmp") ++ "/..") = ["Users"; "me"].
Proof.
  destruct (normalizeSegments_extend "/Users/me" "tmp" eq_refl)
    as (_ & _ & _ & _ & Hpush & Hcancel).
  rewrite Hpush, Hcancel. split; reflexivity.
Defined.

(* ----------------------------------------------------------------- *)
(** ** More on the Case Scorer *)

Lemma agree_sym (ra rb : list rune) : agree ra rb = agree rb ra.
Proof.
  revert rb; induction ra as [|a ra IH]; intros [|b rb]; simpl; try reflexivity.
  rewrite (Z.eqb_sym a b), IH. reflexivity.
Qed.

Lemma agree_prefix (ra rb : list rune) :
  agree ra rb = List.length ra <-> firstn (List.length ra) rb = ra.
Proof.
  revert rb; induction ra as [|a ra IH]; intros [|b rb]; simpl;
    try (split; [reflexivity|reflexivity]); try (split; discriminate).
  pose proof (agree_le ra rb) as Hle. split.
  - intros H. destruct (Z.eqb_spec a b) as [->|]; [|lia].
    f_equal. apply IH. lia.
  - intros [= -> H]. rewrite Z.eqb_refl. apply IH in H. lia.
Qed.

(** X7.  The case score does not depend on which of the two strings is the
    request; it is at most the length, in characters, of the shorter one;
    and it is the length of the first string exactly when the characters
    of the first string are the first characters of the second. *)
Theorem caseScore_symmetric_bounded (a b : string) :
  caseScore a b = caseScore b a
  /\ caseScore a b <= Z.min (runeLen a) (runeLen b)
  /\ (caseScore a b = runeLen a
      <-> firstn (List.length (runes a)) (runes b) = runes a).
Proof.
  rewrite !caseScore_agree. unfold runeLen. split; [|split].
  - now rewrite agree_sym.
  - pose proof (agree_le (runes a) (runes b)).
    pose proof (agree_le (runes b) (runes a)).
    rewrite (agree_sym (runes b) (runes a)) in *. lia.
  - rewrite <- agree_prefix. lia.
Qed.

(* ----------------------------------------------------------------- *)
(** ** More on the Mount Root Locator *)

Section LocatorMore.

Context (L : GoLib) (fs : FileSystem).

(** X8.  When the directory cannot be listed, the Mount Root Locator
    returns the error of the listing as it is.  A name it returns is either
    the name of a listed entry equal to the label under case folding, or,
    when no listed entry is, the lowercase label, found by [os.Stat] to be
    a directory of [dir]. *)
Theorem pickCaseInsensitiveEntry_result (dir want : string) :
  (forall e, os_ReadDir fs dir = Err e ->
             pickCaseInsensitiveEntry L fs dir want = Err e)
  /\ (forall m,
         pickCaseInsensitiveEntry L fs dir want = Ok m ->
         exists ents,
           os_ReadDir fs dir = Ok ents
           /\ ((exists e, In e ents /\ Name e = m
                          /\ strings_EqualFold L m want = true)
               \/ ((forall e, In e ents ->
                              strings_EqualFold L (Name e) want = false)
                   /\ m = strings_ToLower L want
                   /\ statIsDir fs (filepath_Join [dir; m]) = true))).
Proof.
  split.
  - intros e Hread. unfold pickCaseInsensitiveEntry. now rewrite Hread.
  - intros m. unfold pickCaseInsensitiveEntry.
    destruct (os_ReadDir fs dir) as [ents|e]; [|discriminate].
    rewrite pickMatches_filter. intros Hres. exists ents. split; [reflexivity|].
    remember (map (fun e => {| pairName := Name e;
                               pairScore := caseScore want (Name e) |})
                  (filter (fun e => strings_EqualFold L (Name e) want) ents))
      as matches eqn:Hm.
    destruct matches as [|m0 ms].
    + right. cbn [List.length Nat.eqb] in Hres. unfold statIsDir.
      destruct (os_Stat fs _) as [st|e] eqn:Hst; [|discriminate].
      destruct (fiIsDir st) eqn:Hdir; [|discriminate].
      injection Hres as <-. rewrite Hst. repeat split; [|assumption].
      intros e He.
      destruct (strings_EqualFold L (Name e) want) eqn:Hf; [|reflexivity].
      assert (Hin : In e (filter (fun e => strings_EqualFold L (Name e) want) ents))
        by (apply filter_In; now split).
      apply (in_map (fun e => {| pairName := Name e;
                                 pairScore := caseScore want (Name e) |})) in Hin.
      rewrite <- Hm in Hin. destruct Hin.
    + left. cbn [List.length Nat.eqb] in Hres.
      destruct (sort_SliceStable_first pairLess pairLess_asym pairLess_negtrans
                  {| pairName := ""; pairScore := 0 |} (m0 :: ms))
        as [Hin _]; [discriminate|].
      set (h := hd _ _) in *. injection Hres as <-.
      rewrite Hm in Hin.
      apply in_map_iff in Hin. destruct Hin as (e & He & Hin).
      apply filter_In in Hin. destruct Hin as [Hin Hf].
      exists e. rewrite <- He. cbn [pairName]. now repeat split.
Qed.

(** X9.  When the directory lists an entry spelled exactly as the label,
    and the label decodes without U+FFFD, the Mount Root Locator returns
    the label as it is, whatever other spellings the directory lists. *)
Theorem pickCaseInsensitiveEntry_exact (dir want : string)
  (ents : list DirEntry) (e : DirEntry) :
  os_ReadDir fs dir = Ok ents ->
  In e ents -> Name e = want -> noRuneError want ->
  pickCaseInsensitiveEntry L fs dir want = Ok want.
Proof.
  intros Hread Hin Hname Hwf. unfold pickCaseInsensitiveEntry.
  rewrite Hread, pickMatches_filter.
  remember (map (fun e => {| pairName := Name e;
                             pairScore := caseScore want (Name e) |})
                (filter (fun e => strings_EqualFold L (Name e) want) ents))
    as matches eqn:Hm.
  assert (Hexact : In {| pairName := want; pairScore := runeLen want |} matches).
  { rewrite Hm. apply in_map_iff. exists e. split.
    - rewrite Hname. f_equal. rewrite caseScore_agree, agree_refl. reflexivity.
    - apply filter_In. split; [assumption|]. rewrite Hname.
      apply foldEq_refl. }
  assert (Hne : matches <> []) by (intros E; now rewrite E in Hexact).
  destruct (sort_SliceStable_first pairLess pairLess_asym pairLess_negtrans
              {| pairName := ""; pairScore := 0 |} matches Hne) as [Hfirst Hmin].
  set (h := hd _ _) in *.
  replace (List.length matches =? 0)%nat with false
    by (destruct matches; [congruence|reflexivity]).
  f_equal.
  specialize (Hmin _ Hexact). apply pairLess_false_first in Hmin.
  rewrite Hm in Hfirst.
  apply in_map_iff in Hfirst. destruct Hfirst as (e' & He' & Hin').
  apply filter_In in Hin'. destruct Hin' as [_ Hf].
  rewrite <- He' in *. unfold pairFirst in Hmin. cbn [pairName pairScore] in *.
  pose proof (caseScore_le_runeLen want (Name e')) as Hle.
  assert (Hfull : caseScore want (Name e') = runeLen want).
  { destruct Hmin as [Hlt|[Heq _]]; lia. }
  apply (no_RuneError_decodesUniquely want Hwf).
  apply agree_full.
  - now apply (foldEq_length L).
  - rewrite caseScore_agree in Hfull. unfold runeLen in Hfull. lia.
Qed.

End LocatorMore.

Lemma pickCaseInsensitiveEntry_exact_witness :
  pickCaseInsensitiveEntry Fixture.lib Fixture.usersFS "/mnt/c" "USERS"
  = Ok "USERS".
Proof.
  apply (pickCaseInsensitiveEntry_exact Fixture.lib Fixture.usersFS "/mnt/c"
           "USERS" [Fixture.dir "USERS"; Fixture.dir "Users"]
           (Fixture.dir "USERS")).
  - reflexivity.
  - now left.
  - reflexivity.
  - unfold noRuneError. vm_compute.
    intros H. repeat (destruct H as [H|H]; [discriminate H|]). exact H.
Defined.

Lemma pickCaseInsensitiveEntry_result_witness :
  pickCaseInsensitiveEntry Fixture.lib Fixture.lockedFS "/mnt/c/Foo" "x"
  = Err "permission denied".
Proof.
  apply (proj1 (pickCaseInsensitiveEntry_result Fixture.lib Fixture.lockedFS
                  "/mnt/c/Foo" "x")).
  reflexivity.
Defined.

(* ----------------------------------------------------------------- *)
(** ** What [resolveWindowsPath] returns *)

Lemma filepath_Clean_abs (t : string) :
  isAbs (filepath_Clean (String "/" t)) = true.
Proof.
  unfold filepath_Clean. change (Ascii.eqb "/" "/") with true. cbv iota zeta.
  apply isAbs_slash.
Qed.

Lemma filepath_Join_abs (d : string) (r : list string) :
  isAbs d = true -> isAbs (filepath_Join (d :: r)) = true.
Proof.
  intros H. apply isAbs_inv in H. destruct H as [t ->].
  cbn [filepath_Join String.eqb]. unfold strings_Join.
  destruct r as [|x r]; cbn [String.concat]; apply filepath_Clean_abs.
Qed.


Section WindowsMore.

Context (L : GoLib) (fs : FileSystem).


Lemma Reached_abs (rest : list string) (dir : string) (sc : Z) (c : candidate) :
  Reached L fs rest dir sc c -> isAbs dir = true -> isAbs (fullPath c) = true.
Proof.
  induction 1 as [dir sc Hst|seg rest dir sc ents e c Hread Hin Hfold Hdir Hrest IH];
    intros Habs; [exact Habs|].
  apply IH. now apply filepath_Join_abs.
Qed.


(** The body of [resolveWindowsPath] once the mount root is found. *)
Lemma resolveWindowsPath_found (w0 w1 : ascii) (rest m : string) :
  pickCaseInsensitiveEntry L fs "/mnt"
    (encodeRune (unicode_ToLower L (byteVal w0))) = Ok m ->
  let root := filepath_Join ["/mnt"; m] in
  let segs := normalizeSegments (strings_ReplaceAll rest "\" "/") in
  resolveWindowsPath L fs (String w0 (String w1 rest))
  = match emitted L fs segs root 0 with
    | [] =>
      match segs with
      | [] =>
        Done (Err match os_Stat fs root with
                  | Err e => "error: " ++ e
                  | Ok _ => "error: not a directory: " ++ root
                  end)
      | _ :: _ =>
        Done (Err ("error: path does not exist (no case-insensitive match): "
                   ++ String w0 (String w1 rest)))
      end
    | c :: cs =>
      Done (Ok (fullPath (hd {| fullPath := ""; score := 0 |}
                             (sort_SliceStable candLess (c :: cs)))))
    end.
Proof.
  intros Hpick root segs. unfold resolveWindowsPath. rewrite Hpick.
  fold root. fold segs. rewrite exploreCandidates_emitted.
  destruct (emitted L fs segs root 0) as [|c cs] eqn:Hem; [|reflexivity].
  cbn [List.length Nat.eqb]. destruct segs as [|seg segs']; [|reflexivity].
  cbn [List.length Nat.eqb]. simpl in Hem. unfold statIsDir in Hem.
  destruct (os_Stat fs root) as [info|e]; [|reflexivity].
  destruct (fiIsDir info); [discriminate|reflexivity].
Qed.

Lemma resolveWindowsPath_Ok_inv (win p : string) :
  resolveWindowsPath L fs win = Done (Ok p) ->
  exists w0 w1 rest m c,
    win = String w0 (String w1 rest)
    /\ pickCaseInsensitiveEntry L fs "/mnt"
         (encodeRune (unicode_ToLower L (byteVal w0))) = Ok m
    /\ Reached L fs (normalizeSegments (strings_ReplaceAll rest "\" "/"))
               (filepath_Join ["/mnt"; m]) 0 c
    /\ fullPath c = p.
Proof.
  destruct win as [|w0 [|w1 rest]]; try discriminate.
  destruct (pickCaseInsensitiveEntry L fs "/mnt"
              (encodeRune (unicode_ToLower L (byteVal w0)))) as [m|e] eqn:Hpick.
  - rewrite (resolveWindowsPath_found w0 w1 rest m Hpick).
    destruct (emitted L fs _ _ 0) as [|c cs] eqn:Hem.
    + destruct (normalizeSegments _); discriminate.
    + intros [= <-].
      destruct (sort_SliceStable_first candLess candLess_asym candLess_negtrans
                  {| fullPath := ""; score := 0 |} (c :: cs)) as [Hin _];
        [discriminate|].
      set (h := hd _ _) in *.
      rewrite <- Hem in Hin. apply emitted_Reached in Hin.
      exists w0, w1, rest, m, h.
      split; [reflexivity|]. split; [exact Hpick|]. split; [exact Hin|reflexivity].
  - unfold resolveWindowsPath. rewrite Hpick. discriminate.
Qed.

(** X10.  With the mount root found, [resolveWindowsPath] succeeds exactly
    when some chain of matching directories below the root reaches a
    candidate; when none does and there are segments, it fails with the
    [path does not exist] error, which quotes the input. *)
Theorem resolveWindowsPath_succeeds_iff (w0 w1 : ascii) (rest m : string) :
  pickCaseInsensitiveEntry L fs "/mnt"
    (encodeRune (unicode_ToLower L (byteVal w0))) = Ok m ->
  let root := filepath_Join ["/mnt"; m] in
  let segs := normalizeSegments (strings_ReplaceAll rest "\" "/") in
  let win := String w0 (String w1 rest) in
  ((exists p, resolveWindowsPath L fs win = Done (Ok p))
   <-> exists c, Reached L fs segs root 0 c)
  /\ (segs <> [] ->
      (forall c, ~ Reached L fs segs root 0 c) ->
      resolveWindowsPath L fs win
      = Done (Err ("error: path does not exist (no case-insensitive match): "
                   ++ win))).
Proof.
  intros Hpick root segs win. subst win.
  rewrite (resolveWindowsPath_found w0 w1 rest m Hpick). fold root. fold segs.
  split; [split|].
  - intros [p Hp]. destruct (emitted L fs segs root 0) as [|c cs] eqn:Hem.
    + destruct segs; discriminate.
    + exists c. apply emitted_Reached. rewrite Hem. now left.
  - intros [c Hc]. apply emitted_Reached in Hc.
    destruct (emitted L fs segs root 0) as [|c0 cs]; [destruct Hc|].
    eexists. reflexivity.
  - intros Hne Hnone. destruct (emitted L fs segs root 0) as [|c cs] eqn:Hem.
    + destruct segs; [congruence|reflexivity].
    + exfalso. apply (Hnone c). apply emitted_Reached. rewrite Hem. now left.
Qed.

(** X13.  With the mount root found and no segment left after the
    normalization (as for [C:\] and for [C:\a\..]), [resolveWindowsPath]
    returns the mount root when [os.Stat] finds it to be a directory, and
    otherwise the error of [os.Stat] or the [not a directory] error. *)
Theorem resolveWindowsPath_drive_root (w0 w1 : ascii) (rest m : string) :
  pickCaseInsensitiveEntry L fs "/mnt"
    (encodeRune (unicode_ToLower L (byteVal w0))) = Ok m ->
  normalizeSegments (strings_ReplaceAll rest "\" "/") = [] ->
  let root := filepath_Join ["/mnt"; m] in
  resolveWindowsPath L fs (String w0 (String w1 rest))
  = match os_Stat fs root with
    | Err e => Done (Err ("error: " ++ e))
    | Ok info =>
      if fiIsDir info then Done (Ok root)
      else Done (Err ("error: not a directory: " ++ root))
    end.
Proof.
  intros Hpick Hsegs root.
  rewrite (resolveWindowsPath_found w0 w1 rest m Hpick), Hsegs. fold root.
  simpl. unfold statIsDir.
  destruct (os_Stat fs root) as [info|e]; [|reflexivity].
  destruct (fiIsDir info); reflexivity.
Qed.



Lemma strings_ReplaceAll_idem (s : string) (old new : ascii) :
  old <> new ->
  strings_ReplaceAll (strings_ReplaceAll s old new) old new
  = strings_ReplaceAll s old new.
Proof.
  intros Hne. induction s as [|c t IH]; simpl; [reflexivity|].
  rewrite IH. f_equal.
  destruct (Ascii.eqb_spec c old) as [->|Hc].
  - destruct (Ascii.eqb_spec new old); congruence.
  - destruct (Ascii.eqb_spec c old); congruence.
Qed.

(** X12.  Backslashes and slashes are interchangeable after the drive:
    with every backslash of the input written as a slash, the input is
    still a separator-using drive path and [resolveWindowsPath] returns the
    same path, if it returns one. *)
Theorem resolveWindowsPath_slashes (w0 w1 : ascii) (rest : string) :
  let win := String w0 (String w1 rest) in
  let win' := String w0 (String w1 (strings_ReplaceAll rest "\" "/")) in
  (isWindowsPath L win = true -> isWindowsPath L win' = true)
  /\ forall p, resolveWindowsPath L fs win = Done (Ok p)
               <-> resolveWindowsPath L fs win' = Done (Ok p).
Proof.
  intros win win'. split.
  - subst win win'. destruct rest as [|p2 t]; [discriminate|].
    cbn [isWindowsPath strings_ReplaceAll].
    destruct (unicode_IsLetter L (byteVal w0)), (Ascii.eqb w1 ":");
      cbn [negb]; try discriminate.
    destruct (Ascii.eqb_spec p2 "\") as [->|]; [reflexivity|].
    cbn [orb]. intros ->. apply orb_true_r.
  - intros p. subst win win'.
    destruct (pickCaseInsensitiveEntry L fs "/mnt"
                (encodeRune (unicode_ToLower L (byteVal w0)))) as [m|e] eqn:Hpick.
    + rewrite !(resolveWindowsPath_found _ _ _ m Hpick).
      rewrite strings_ReplaceAll_idem by discriminate.
      destruct (emitted L fs _ _ 0); [|reflexivity].
      destruct (normalizeSegments _); split; discriminate.
    + unfold resolveWindowsPath. rewrite Hpick. split; discriminate.
Qed.

End WindowsMore.

Lemma resolveWindowsPath_succeeds_iff_witness :
  resolveWindowsPath Fixture.lib Fixture.usersFS "C:\nope"
  = Done (Err "error: path does not exist (no case-insensitive match): C:\nope").
Proof.
  apply (proj2 (resolveWindowsPath_succeeds_iff Fixture.lib Fixture.usersFS
                  "C" ":" "\nope" "c" eq_refl)).
  - discriminate.
  - intros c Hc. apply emitted_Reached in Hc. vm_compute in Hc. exact Hc.
Defined.

Lemma resolveWindowsPath_drive_root_witness :
  resolveWindowsPath Fixture.lib Fixture.usersFS "C:\Users\.." = Done (Ok "/mnt/c").
Proof.
  exact (resolveWindowsPath_drive_root Fixture.lib Fixture.usersFS
           "C" ":" "\Users\.." "c" eq_refl eq_refl).
Defined.



Lemma resolveWindowsPath_slashes_witness :
  resolveWindowsPath Fixture.lib Fixture.lockedFS "C:/FOO/bar"
  = Done (Ok "/mnt/c/foo/bar").
Proof.
  apply (proj2 (resolveWindowsPath_slashes Fixture.lib Fixture.lockedFS
                  "C" ":" "\FOO\bar")).
  reflexivity.
Defined.

(* ----------------------------------------------------------------- *)
(** ** What the Greedy Matcher returns *)

Section CollapsedMore.

Context (L : GoLib) (fs : FileSystem).

Lemma collapsedIter_Return_Ok (curr tail p : string) :
  collapsedIter L fs curr tail = Return (Ok p) ->
  tail = EmptyString /\ p = curr /\ statIsDir fs curr = true.
Proof.
  unfold collapsedIter, statIsDir. destruct tail as [|t0 t'].
  - destruct (os_Stat fs curr) as [info|e]; [|discriminate].
    destruct (fiIsDir info); [|discriminate]. intros [= <-]. auto.
  - destruct (Ascii.eqb t0 "/" || Ascii.eqb t0 "\"); [discriminate|].
    destruct (os_ReadDir fs curr) as [ents|e]; [|discriminate].
    destruct (List.length _ =? 0)%nat; discriminate.
Qed.

(** A pass that goes round either skips separators or enters a listed
    entry that satisfies the prefix condition and resolves to a
    directory. *)
Lemma collapsedIter_Continue (curr tail curr' tail' : string) :
  collapsedIter L fs curr tail = Continue curr' tail' ->
  (exists t0 t', tail = String t0 t'
                 /\ Ascii.eqb t0 "/" || Ascii.eqb t0 "\" = true
                 /\ curr' = curr /\ tail' = strings_TrimLeft tail "\/")
  \/ (exists ents e,
         strings_TrimLeft tail "\/" = tail
         /\ os_ReadDir fs curr = Ok ents /\ In e ents
         /\ prefixMatches L tail e = true /\ resolvesToDir fs curr e = true
         /\ curr' = filepath_Join [curr; Name e]
         /\ tail' = sliceFrom (len (Name e)) tail).
Proof.
  unfold collapsedIter. destruct tail as [|t0 t'].
  { destruct (os_Stat fs curr) as [info|e];
      [destruct (fiIsDir info)|]; discriminate. }
  destruct (Ascii.eqb t0 "/" || Ascii.eqb t0 "\") eqn:Hsep.
  { intros [= <- <-]. left. exists t0, t'. auto. }
  destruct (os_ReadDir fs curr) as [ents|e] eqn:Hread; [|discriminate].
  rewrite collapsedMatches_filter.
  remember (map (candOf (String t0 t'))
                (filter (fun e => prefixMatches L (String t0 t') e
                                  && resolvesToDir fs curr e) ents))
    as ms eqn:Hms.
  destruct ms as [|m0 ms0]; [discriminate|].
  cbn [List.length Nat.eqb].
  destruct (sort_SliceStable_first collapsedLess collapsedLess_asym
              collapsedLess_negtrans
              {| candName := ""; plen := 0; candScore := 0 |} (m0 :: ms0))
    as [Hin _]; [discriminate|].
  set (chosen := hd _ _) in *. intros [= <- <-].
  rewrite Hms in Hin. apply in_map_iff in Hin.
  destruct Hin as (e & Hchosen & He). apply filter_In in He.
  destruct He as [Hinents He]. apply andb_prop in He. destruct He as [Hp Hd].
  right. exists ents, e. rewrite <- Hchosen. cbn [candName plen candOf].
  repeat split; try assumption.
  cbn [strings_TrimLeft byteIn].
  replace (Ascii.eqb t0 "\" || (Ascii.eqb t0 "/" || false)) with false;
    [reflexivity|].
  destruct (Ascii.eqb t0 "/"), (Ascii.eqb t0 "\"); simpl in *; congruence.
Qed.

Lemma collapsedLoop_Segmented (fuel : nat) :
  forall curr tail p,
    collapsedLoop L fs fuel curr tail = Done (Ok p) ->
    Segmented L fs curr tail p.
Proof.
  induction fuel as [|fuel IH]; intros curr tail p; [discriminate|].
  cbn [collapsedLoop].
  destruct (collapsedIter L fs curr tail) as [r|curr' tail'] eqn:Hiter.
  - intros [= ->]. apply collapsedIter_Return_Ok in Hiter.
    destruct Hiter as (-> & -> & Hst). now constructor.
  - intros Hloop. apply IH in Hloop.
    apply collapsedIter_Continue in Hiter.
    destruct Hiter as [(t0 & t' & Htail & Hsep & -> & ->)
                      |(ents & e & Hstrip & Hread & Hin & Hp & Hd & -> & ->)].
    + now apply (Segmented_skip L fs curr tail p t0 t').
    + now apply (Segmented_take L fs curr tail p ents e).
Qed.

Lemma Segmented_statIsDir (curr tail p : string) :
  Segmented L fs curr tail p -> statIsDir fs p = true.
Proof. induction 1; assumption. Qed.

Lemma Segmented_abs (curr tail p : string) :
  Segmented L fs curr tail p -> isAbs curr = true -> isAbs p = true.
Proof.
  induction 1 as [curr Hst| |]; intros Habs; [assumption|auto|].
  apply IHSegmented. now apply filepath_Join_abs.
Qed.


(** X16.  A path the Greedy Matcher returns is reached from the mount root
    by using up the tail to its last byte: separators are skipped, and
    every directory entered is a listed entry that resolves to a directory
    (the entry is a directory, or [os.Stat] finds its path to be one:
    [resolvesToDir]) and whose name is, under case folding, a prefix of
    what is left of the tail; [os.Stat] finds the path to be a
    directory. *)
Theorem resolveWindowsPathCollapsed_sound (fuel : nat) (win p : string) :
  resolveWindowsPathCollapsed L fs fuel win = Done (Ok p) ->
  exists w0 w1 tail m,
    win = String w0 (String w1 tail)
    /\ pickCaseInsensitiveEntry L fs "/mnt"
         (encodeRune (unicode_ToLower L (byteVal w0))) = Ok m
    /\ Segmented L fs (filepath_Join ["/mnt"; m])
                 (strings_TrimLeft tail "\/") p
    /\ statIsDir fs p = true.
Proof.
  destruct win as [|w0 [|w1 tail]]; try discriminate.
  unfold resolveWindowsPathCollapsed.
  destruct (pickCaseInsensitiveEntry L fs "/mnt" _) as [m|e] eqn:Hpick;
    [|discriminate].
  intros H. apply collapsedLoop_Segmented in H.
  exists w0, w1, tail, m. repeat split; try assumption.
  now apply Segmented_statIsDir in H.
Qed.

End CollapsedMore.

(** On [linksFS] the matcher passes by the regular files [ProjectsXr] and
    [repo] and goes through the link [Repo]. *)
Lemma resolveWindowsPathCollapsed_sound_witness :
  (exists m,
      Segmented Fixture.lib Fixture.linksFS (filepath_Join ["/mnt"; m])
                "ProjectsXrepo" "/mnt/c/ProjectsX/Repo"
      /\ statIsDir Fixture.linksFS "/mnt/c/ProjectsX/Repo" = true)
  /\ resolvesToDir Fixture.linksFS "/mnt/c" (Fixture.file "ProjectsXr")
     = false
  /\ resolvesToDir Fixture.linksFS "/mnt/c/ProjectsX" (Fixture.file "repo")
     = false.
Proof.
  split; [|split; reflexivity].
  destruct (resolveWindowsPathCollapsed_sound Fixture.lib Fixture.linksFS
              6 "c:ProjectsXrepo" "/mnt/c/ProjectsX/Repo" eq_refl)
    as (w0 & w1 & tail & m & Hwin & _ & Hseg & Hst).
  injection Hwin as <- <- <-. exists m. split; [exact Hseg|exact Hst].
Defined.

(* ----------------------------------------------------------------- *)
(** ** What [ResolveTarget] returns *)

Section TargetMore.

Context (L : GoLib) (fs : FileSystem).

Lemma resolveLinuxTarget_Ok (arg cwd home p : string) :
  resolveLinuxTarget fs arg cwd home = Ok p ->
  resolveLinuxLike arg cwd home = Ok p /\ statIsDir fs p = true.
Proof.
  unfold resolveLinuxTarget, statIsDir.
  destruct (resolveLinuxLike arg cwd home) as [q|e]; [|discriminate].
  destruct (os_Stat fs q) as [info|e] eqn:Hst; [|discriminate].
  destruct (fiIsDir info) eqn:Hdir; [|discriminate].
  intros [= <-]. now rewrite Hst, Hdir.
Qed.

Lemma filepath_Clean_keeps_abs (p : string) :
  isAbs p = true -> isAbs (filepath_Clean p) = true.
Proof.
  intros H. apply isAbs_inv in H. destruct H as [t ->].
  apply filepath_Clean_abs.
Qed.

Lemma Ok_inj {A : Type} (a b : A) : Ok a = Ok b -> a = b.
Proof. congruence. Qed.

Lemma resolveLinuxLike_abs (arg cwd home p : string) :
  isAbs cwd = true -> isAbs home = true ->
  resolveLinuxLike arg cwd home = Ok p -> isAbs p = true.
Proof.
  intros Hcwd Hhome. unfold resolveLinuxLike.
  destruct (arg =? "~")%string.
  { destruct (home =? "")%string; [discriminate|].
    intros H; apply Ok_inj in H; subst p.
    now apply filepath_Clean_keeps_abs. }
  destruct (strings_HasPrefix arg "~/").
  { destruct (home =? "")%string; [discriminate|].
    intros H; apply Ok_inj in H; subst p.
    apply filepath_Clean_keeps_abs. now apply filepath_Join_abs. }
  destruct (strings_HasPrefix arg "/") eqn:Harg; cbn [negb];
    intros H; apply Ok_inj in H; subst p.
  - now apply filepath_Clean_keeps_abs.
  - apply filepath_Clean_keeps_abs. now apply filepath_Join_abs.
Qed.

Lemma filepath_Join_mnt_abs (m : string) : isAbs (filepath_Join ["/mnt"; m]) = true.
Proof. apply filepath_Join_abs. reflexivity. Qed.

Lemma ResolveTarget_Ok_statIsDir (fuel : nat) (arg cwd home p : string) :
  ResolveTarget L fs fuel arg cwd home = Done (Ok p) -> statIsDir fs p = true.
Proof.
  unfold ResolveTarget.
  destruct (strings_TrimSpace L arg =? "")%string; [discriminate|].
  destruct (isWindowsPath L (strings_TrimSpace L arg)).
  { intros H. apply resolveWindowsPath_Ok_inv in H.
    destruct H as (w0 & w1 & rest & m & c & _ & _ & Hreach & <-).
    now apply Reached_statIsDir in Hreach. }
  destruct (looksLikeWindowsDriveNoSlash L (strings_TrimSpace L arg)).
  { intros H.
    destruct (strings_TrimSpace L arg) as [|w0 [|w1 tail]]; try discriminate.
    unfold resolveWindowsPathCollapsed in H.
    destruct (pickCaseInsensitiveEntry L fs "/mnt" _); [|discriminate].
    apply collapsedLoop_Segmented in H. now apply Segmented_statIsDir in H. }
  intros [= H]. now apply resolveLinuxTarget_Ok in H.
Qed.

(** X4.  A path [ResolveTarget] returns is a directory that exists:
    [os.Stat] succeeds on it and reports a directory, whichever of the
    three ways of resolution the input took. *)
Theorem ResolveTarget_existing_directory (fuel : nat) (arg cwd home p : string) :
  ResolveTarget L fs fuel arg cwd home = Done (Ok p) ->
  exists info, os_Stat fs p = Ok info /\ fiIsDir info = true.
Proof.
  intros H. apply ResolveTarget_Ok_statIsDir in H.
  unfold statIsDir in H. destruct (os_Stat fs p) as [info|e]; [|discriminate].
  now exists info.
Qed.

(** X6.  When the working directory and the home directory are absolute
    paths, so is every path [ResolveTarget] returns. *)
Theorem ResolveTarget_absolute (fuel : nat) (arg cwd home p : string) :
  isAbs cwd = true -> isAbs home = true ->
  ResolveTarget L fs fuel arg cwd home = Done (Ok p) ->
  isAbs p = true.
Proof.
  intros Hcwd Hhome. unfold ResolveTarget.
  destruct (strings_TrimSpace L arg =? "")%string; [discriminate|].
  destruct (isWindowsPath L (strings_TrimSpace L arg)).
  { intros H. apply resolveWindowsPath_Ok_inv in H.
    destruct H as (w0 & w1 & rest & m & c & _ & _ & Hreach & <-).
    apply (Reached_abs L fs _ _ _ _ Hreach). apply filepath_Join_mnt_abs. }
  destruct (looksLikeWindowsDriveNoSlash L (strings_TrimSpace L arg)).
  { intros H.
    destruct (strings_TrimSpace L arg) as [|w0 [|w1 tail]]; try discriminate.
    unfold resolveWindowsPathCollapsed in H.
    destruct (pickCaseInsensitiveEntry L fs "/mnt" _) as [m|]; [|discriminate].
    apply collapsedLoop_Segmented in H.
    apply (Segmented_abs L fs _ _ _ H). apply filepath_Join_mnt_abs. }
  intros [= H]. apply resolveLinuxTarget_Ok in H. destruct H as [H _].
  now apply (resolveLinuxLike_abs _ _ _ _ Hcwd Hhome H).
Qed.

Lemma resolveWindowsPath_no_panic (w0 w1 : ascii) (rest : string) :
  resolveWindowsPath L fs (String w0 (String w1 rest)) <> Panic.
Proof.
  unfold resolveWindowsPath.
  destruct (pickCaseInsensitiveEntry L fs "/mnt" _); [|discriminate].
  destruct (exploreCandidates L fs _ _) as [cands|e]; [|discriminate].
  destruct (List.length cands =? 0)%nat; [|discriminate].
  destruct (List.length _ =? 0)%nat; [|discriminate].
  destruct (os_Stat fs _) as [info|e]; [destruct (negb (fiIsDir info))|];
    discriminate.
Qed.

Lemma ResolveTarget_cases (fuel : nat) (arg cwd home : string) :
  (exists r, ResolveTarget L fs fuel arg cwd home = Done r)
  \/ (exists w0 w1 tail m,
         strings_TrimSpace L arg = String w0 (String w1 tail)
         /\ ResolveTarget L fs fuel arg cwd home
            = collapsedLoop L fs fuel (filepath_Join ["/mnt"; m])
                            (strings_TrimLeft tail "\/")).
Proof.
  unfold ResolveTarget.
  destruct (strings_TrimSpace L arg =? "")%string; [left; now eexists|].
  destruct (isWindowsPath L (strings_TrimSpace L arg)) eqn:Hwin.
  { left. destruct (strings_TrimSpace L arg) as [|w0 [|w1 [|w2 rest]]];
      try discriminate.
    unfold resolveWindowsPath.
    destruct (pickCaseInsensitiveEntry L fs "/mnt" _); [|now eexists].
    destruct (exploreCandidates L fs _ _) as [cands|e]; [|now eexists].
    destruct (List.length cands =? 0)%nat; [|now eexists].
    destruct (List.length _ =? 0)%nat; [|now eexists].
    destruct (os_Stat fs _) as [info|e]; [destruct (negb (fiIsDir info))|];
      now eexists. }
  destruct (looksLikeWindowsDriveNoSlash L (strings_TrimSpace L arg)) eqn:Hcol;
    [|left; now eexists].
  destruct (strings_TrimSpace L arg) as [|w0 [|w1 tail]]; try discriminate.
  unfold resolveWindowsPathCollapsed.
  destruct (pickCaseInsensitiveEntry L fs "/mnt" _) as [m|e]; [|left; now eexists].
  right. exists w0, w1, tail, m. split; reflexivity.
Qed.


(** X15.  [ResolveTarget] returns: on a file system none of whose
    directories lists an entry with an empty name, the loop of the Greedy
    Matcher needs fewer passes than the trimmed input has bytes. *)
Theorem ResolveTarget_returns (fuel : nat) (arg cwd home : string) :
  (forall d ents e, os_ReadDir fs d = Ok ents -> In e ents ->
                    Name e <> EmptyString) ->
  (len (strings_TrimSpace L arg) <= fuel)%nat ->
  exists r, ResolveTarget L fs fuel arg cwd home = Done r.
Proof.
  intros Hnames Hfuel.
  destruct (ResolveTarget_cases fuel arg cwd home)
    as [H|(w0 & w1 & tail & m & Harg & ->)]; [exact H|].
  apply (collapsedLoop_returns L fs fuel Hnames).
  pose proof (strings_TrimLeft_len tail "\/") as Hlen.
  rewrite Harg in Hfuel. unfold len in *. simpl in Hfuel. lia.
Qed.

End TargetMore.

Lemma ResolveTarget_existing_directory_witness :
  exists info,
    os_Stat Fixture.usersFS "/mnt/c/Users" = Ok info /\ fiIsDir info = true.
Proof.
  exact (ResolveTarget_existing_directory Fixture.lib Fixture.usersFS 0
           "  C:\users " "/mnt" "/root" "/mnt/c/Users" eq_refl).
Defined.

Lemma ResolveTarget_absolute_witness : isAbs "/mnt/c" = true.
Proof.
  exact (ResolveTarget_absolute Fixture.lib Fixture.usersFS 0
           "c" "/mnt" "/root" "/mnt/c" eq_refl eq_refl eq_refl).
Defined.

Lemma projectsFS_names (d : string) (ents : list DirEntry) (e : DirEntry) :
  os_ReadDir Fixture.projectsFS d = Ok ents -> In e ents ->
  Name e <> EmptyString.
Proof.
  cbn [os_ReadDir Fixture.projectsFS Fixture.mkFS existsb Fixture.lookup].
  repeat (destruct (d =? _)%string;
          [intros [= <-] Hin; simpl in Hin;
           repeat (destruct Hin as [<-|Hin]; [discriminate|]); destruct Hin|]).
  discriminate.
Qed.

Lemma ResolveTarget_returns_witness :
  exists r,
    ResolveTarget Fixture.lib Fixture.projectsFS 14 "C:Projectsrepo" "/" "/root"
    = Done r.
Proof.
  apply (ResolveTarget_returns Fixture.lib Fixture.projectsFS 14
           "C:Projectsrepo" "/" "/root" projectsFS_names).
  vm_compute. lia.
Defined.

(* ----------------------------------------------------------------- *)
(** ** The order in which directories are listed does not matter *)

Lemma pairFirst_antisym (a b : pair) : pairFirst a b -> pairFirst b a -> a = b.
Proof.
  destruct a as [na sa], b as [nb sb]; unfold pairFirst; simpl.
  intros [H1|[E1 H1]] [H2|[E2 H2]]; try lia.
  subst. f_equal. now apply String.leb_antisym.
Qed.

Lemma collapsedFirst_antisym (a b : cand) :
  collapsedFirst a b -> collapsedFirst b a -> a = b.
Proof.
  destruct a as [na pa sa], b as [nb pb sb]; unfold collapsedFirst; simpl.
  intros [H1|[E1 [H1|[F1 H1]]]] [H2|[E2 [H2|[F2 H2]]]]; try lia.
  subst. f_equal. now apply String.leb_antisym.
Qed.

Section FirstOfPermutation.

Context {A : Type} (less : A -> A -> bool).
Hypothesis less_asym : forall a b, less a b = true -> less b a = false.
Hypothesis less_negtrans :
  forall a b c, less a b = false -> less b c = false -> less a c = false.
Hypothesis less_total :
  forall a b, less a b = false -> less b a = false -> a = b.

(** The first element after sorting is the same for every order in which
    the elements are given. *)
Lemma sort_SliceStable_first_perm (d : A) (l l' : list A) :
  Permutation l l' ->
  hd d (sort_SliceStable less l) = hd d (sort_SliceStable less l').
Proof.
  intros Hperm. destruct l as [|x l0].
  - apply Permutation_nil in Hperm. now subst.
  - assert (Hne' : l' <> []).
    { intros ->. apply Permutation_sym, Permutation_nil in Hperm. discriminate. }
    destruct (sort_SliceStable_first less less_asym less_negtrans d (x :: l0))
      as [Hin Hmin]; [discriminate|].
    destruct (sort_SliceStable_first less less_asym less_negtrans d l' Hne')
      as [Hin' Hmin'].
    apply less_total.
    + apply Hmin'. now apply (Permutation_in _ Hperm).
    + apply Hmin. now apply (Permutation_in _ (Permutation_sym Hperm)).
Qed.

End FirstOfPermutation.

Lemma candLess_total (a b : candidate) :
  candLess a b = false -> candLess b a = false -> a = b.
Proof.
  intros H1 H2. apply candFirst_antisym; now apply candLess_false_first.
Qed.

Lemma pairLess_total (a b : pair) :
  pairLess a b = false -> pairLess b a = false -> a = b.
Proof.
  intros H1 H2. apply pairFirst_antisym; now apply pairLess_false_first.
Qed.

Lemma collapsedLess_total (a b : cand) :
  collapsedLess a b = false -> collapsedLess b a = false -> a = b.
Proof.
  intros H1 H2. apply collapsedFirst_antisym; now apply collapsedLess_false_first.
Qed.

Lemma filter_reordered {T : Type} (keep : T -> bool) (xs ys : list T)
  (Hxy : Permutation xs ys) :
  Permutation (filter keep xs) (filter keep ys).
Proof.
  induction Hxy as [|x xs ys H IH|x y xs|xs ys zs H1 IH1 H2 IH2]; simpl.
  - constructor.
  - destruct (keep x); [now constructor|assumption].
  - destruct (keep x), (keep y); try reflexivity. apply perm_swap.
  - now transitivity (filter keep ys).
Qed.

Lemma Permutation_flat_map_pointwise {A B : Type} (f g : A -> list B)
  (l l' : list A) :
  (forall x, Permutation (f x) (g x)) ->
  Permutation l l' -> Permutation (flat_map f l) (flat_map g l').
Proof.
  intros Hfg Hperm.
  transitivity (flat_map g l).
  - clear Hperm. induction l as [|x l IH]; simpl; [constructor|].
    now apply Permutation_app.
  - now apply Permutation_flat_map.
Qed.

Section ListingOrder.

Context (L : GoLib) (fs fs' : FileSystem).
Hypothesis Hsame : sameUpToOrder fs fs'.

Lemma sameUpToOrder_Stat (p : string) : os_Stat fs' p = os_Stat fs p.
Proof. apply Hsame. Qed.

Lemma sameUpToOrder_statIsDir (p : string) : statIsDir fs' p = statIsDir fs p.
Proof. unfold statIsDir. now rewrite sameUpToOrder_Stat. Qed.

Lemma sameUpToOrder_resolvesToDir (d : string) (e : DirEntry) :
  resolvesToDir fs' d e = resolvesToDir fs d e.
Proof.
  unfold resolvesToDir. now rewrite sameUpToOrder_statIsDir.
Qed.

Lemma sameUpToOrder_ReadDir (d : string) :
  (exists ents ents', os_ReadDir fs d = Ok ents /\ os_ReadDir fs' d = Ok ents'
                      /\ Permutation ents ents')
  \/ (exists e, os_ReadDir fs d = Err e /\ os_ReadDir fs' d = Err e).
Proof.
  destruct Hsame as [_ H]. specialize (H d).
  destruct (os_ReadDir fs d) as [ents|e], (os_ReadDir fs' d) as [ents'|e'];
    try contradiction.
  - left. now exists ents, ents'.
  - right. exists e. now subst.
Qed.

Lemma pickCaseInsensitiveEntry_order (dir want : string) :
  pickCaseInsensitiveEntry L fs' dir want = pickCaseInsensitiveEntry L fs dir want.
Proof.
  unfold pickCaseInsensitiveEntry.
  destruct (sameUpToOrder_ReadDir dir)
    as [(ents & ents' & -> & -> & Hperm)|(e & -> & ->)]; [|reflexivity].
  rewrite !pickMatches_filter.
  assert (Hms : Permutation
                  (map (fun e => {| pairName := Name e;
                                    pairScore := caseScore want (Name e) |})
                       (filter (fun e => strings_EqualFold L (Name e) want) ents'))
                  (map (fun e => {| pairName := Name e;
                                    pairScore := caseScore want (Name e) |})
                       (filter (fun e => strings_EqualFold L (Name e) want) ents))).
  { apply Permutation_map, filter_reordered. now symmetry. }
  rewrite (Permutation_length Hms), sameUpToOrder_Stat.
  now rewrite (sort_SliceStable_first_perm pairLess pairLess_asym
                 pairLess_negtrans pairLess_total _ _ _ Hms).
Qed.

Lemma emitted_order (rest : list string) :
  forall dir sc,
    Permutation (emitted L fs' rest dir sc) (emitted L fs rest dir sc).
Proof.
  induction rest as [|seg rest IH]; intros dir sc; cbn [emitted].
  - now rewrite sameUpToOrder_statIsDir.
  - destruct (sameUpToOrder_ReadDir dir)
      as [(ents & ents' & -> & -> & Hperm)|(e & -> & ->)]; [|reflexivity].
    rewrite !exploreMatches_filter.
    apply Permutation_flat_map_pointwise; [intros m; apply IH|].
    apply Permutation_map.
    rewrite (filter_ext _ (fun e => strings_EqualFold L (Name e) seg
                                    && resolvesToDir fs dir e)).
    + apply filter_reordered. now symmetry.
    + intros e. now rewrite sameUpToOrder_resolvesToDir.
Qed.

Lemma resolveWindowsPath_order (win : string) :
  resolveWindowsPath L fs' win = resolveWindowsPath L fs win.
Proof.
  destruct win as [|w0 [|w1 rest]]; try reflexivity.
  unfold resolveWindowsPath. rewrite pickCaseInsensitiveEntry_order.
  destruct (pickCaseInsensitiveEntry L fs "/mnt" _) as [m|e]; [|reflexivity].
  rewrite !exploreCandidates_emitted.
  pose proof (emitted_order
                (normalizeSegments (strings_ReplaceAll rest "\" "/"))
                (filepath_Join ["/mnt"; m]) 0) as Hperm.
  rewrite (Permutation_length Hperm), sameUpToOrder_Stat.
  now rewrite (sort_SliceStable_first_perm candLess candLess_asym
                 candLess_negtrans candLess_total _ _ _ Hperm).
Qed.

Lemma collapsedIter_order (curr tail : string) :
  collapsedIter L fs' curr tail = collapsedIter L fs curr tail.
Proof.
  unfold collapsedIter. rewrite sameUpToOrder_Stat.
  destruct tail as [|t0 t']; [reflexivity|].
  destruct (Ascii.eqb t0 "/" || Ascii.eqb t0 "\"); [reflexivity|].
  destruct (sameUpToOrder_ReadDir curr)
    as [(ents & ents' & -> & -> & Hperm)|(e & -> & ->)]; [|reflexivity].
  rewrite !collapsedMatches_filter.
  assert (Hms : Permutation
                  (map (candOf (String t0 t'))
                       (filter (fun e => prefixMatches L (String t0 t') e
                                         && resolvesToDir fs' curr e) ents'))
                  (map (candOf (String t0 t'))
                       (filter (fun e => prefixMatches L (String t0 t') e
                                         && resolvesToDir fs curr e) ents))).
  { apply Permutation_map.
    rewrite (filter_ext _ (fun e => prefixMatches L (String t0 t') e
                                    && resolvesToDir fs curr e)).
    - apply filter_reordered. now symmetry.
    - intros e. now rewrite sameUpToOrder_resolvesToDir. }
  rewrite (Permutation_length Hms).
  now rewrite (sort_SliceStable_first_perm collapsedLess collapsedLess_asym
                 collapsedLess_negtrans collapsedLess_total _ _ _ Hms).
Qed.

Lemma collapsedLoop_order (fuel : nat) :
  forall curr tail,
    collapsedLoop L fs' fuel curr tail = collapsedLoop L fs fuel curr tail.
Proof.
  induction fuel as [|fuel IH]; intros curr tail; [reflexivity|].
  cbn [collapsedLoop]. rewrite collapsedIter_order.
  destruct (collapsedIter L fs curr tail); [reflexivity|apply IH].
Qed.

(** X19.  The result of [ResolveTarget], path or error, does not depend on
    the order in which [os.ReadDir] lists the entries of the directories:
    on two file systems that differ in that order only it is the same. *)
Theorem ResolveTarget_listing_order (fuel : nat) (arg cwd home : string) :
  ResolveTarget L fs' fuel arg cwd home = ResolveTarget L fs fuel arg cwd home.
Proof.
  unfold ResolveTarget.
  destruct (strings_TrimSpace L arg =? "")%string; [reflexivity|].
  rewrite resolveWindowsPath_order.
  destruct (isWindowsPath L (strings_TrimSpace L arg)); [reflexivity|].
  destruct (looksLikeWindowsDriveNoSlash L (strings_TrimSpace L arg)).
  - unfold resolveWindowsPathCollapsed.
    destruct (strings_TrimSpace L arg) as [|w0 [|w1 tail]]; try reflexivity.
    rewrite pickCaseInsensitiveEntry_order.
    destruct (pickCaseInsensitiveEntry L fs "/mnt" _); [|reflexivity].
    apply collapsedLoop_order.
  - unfold resolveLinuxTarget.
    destruct (resolveLinuxLike _ cwd home); [|reflexivity].
    now rewrite sameUpToOrder_Stat.
Qed.

End ListingOrder.

Lemma usersFS_sameUpToOrder : sameUpToOrder Fixture.usersFS Fixture.usersFS'.
Proof.
  split.
  { intros p.
    cbn [os_Stat Fixture.usersFS Fixture.usersFS' Fixture.mkFS existsb
         Fixture.lookup].
    repeat (destruct (p =? _)%string; [reflexivity|]). reflexivity. }
  intros d.
  cbn [os_ReadDir Fixture.usersFS Fixture.usersFS' Fixture.mkFS existsb
       Fixture.lookup].
  repeat (destruct (d =? _)%string; [try reflexivity; apply perm_swap|]).
  reflexivity.
Qed.

Lemma ResolveTarget_listing_order_witness :
  ResolveTarget Fixture.lib Fixture.usersFS' 0 "C:\UsERs" "/" "/root"
  = Done (Ok "/mnt/c/USERS").
Proof.
  rewrite (ResolveTarget_listing_order Fixture.lib Fixture.usersFS
             Fixture.usersFS' usersFS_sameUpToOrder).
  reflexivity.
Defined.

(* ----------------------------------------------------------------- *)
(** ** Linux paths and the command *)

Lemma append_nl_nonempty (s : string) : s ++ nl <> EmptyString.
Proof. destruct s; discriminate. Qed.

(** X18.  [resolveLinuxLike] fails exactly when [HOME] is empty and the
    argument is [~] or starts with [~/]; and an argument that starts with
    [/] resolves to its cleaned form whatever the working directory and
    [HOME] are. *)
Theorem resolveLinuxLike_cases (arg cwd home : string) :
  ((exists e, resolveLinuxLike arg cwd home = Err e)
   <-> home = EmptyString
       /\ (arg = "~" \/ strings_HasPrefix arg "~/" = true))
  /\ (isAbs arg = true ->
      resolveLinuxLike arg cwd home = Ok (filepath_Clean arg)).
Proof.
  unfold resolveLinuxLike. split.
  - destruct (String.eqb_spec arg "~") as [->|Hne].
    { destruct (String.eqb_spec home "") as [->|Hh].
      - split; [intros _; auto|intros _; now eexists].
      - split; [intros [e He]; discriminate|intros [Hh' _]; congruence]. }
    destruct (strings_HasPrefix arg "~/") eqn:Hpre.
    { destruct (String.eqb_spec home "") as [->|Hh].
      - split; [intros _; auto|intros _; now eexists].
      - split; [intros [e He]; discriminate|intros [Hh' _]; congruence]. }
    destruct (negb (strings_HasPrefix arg "/")).
    + split; [intros [e He]; discriminate|intros [_ [H|H]]; congruence].
    + split; [intros [e He]; discriminate|intros [_ [H|H]]; congruence].
  - intros Habs. pose proof Habs as Habs'. apply isAbs_inv in Habs'.
    destruct Habs' as [t ->]. unfold isAbs in Habs. rewrite Habs.
    reflexivity.
Qed.

Lemma resolveLinuxLike_cases_witness :
  resolveLinuxLike "/var/../tmp/." "" "" = Ok "/tmp".
Proof.
  rewrite (proj2 (resolveLinuxLike_cases "/var/../tmp/." "" "") eq_refl).
  reflexivity.
Defined.

Section Command.

Context (L : GoLib) (fs : FileSystem).

(** X17.  What [main] does.  When the arguments are not one, or the one
    argument is [-h] or [--help], it writes the usage text to the standard
    error and exits with status 0.  Otherwise: when the working directory
    cannot be had, it writes that error to the standard error and exits
    with status 1; when [ResolveTarget] returns a directory, that
    directory exists, and [main] writes it and a line feed to the standard
    output and exits with status 0; when [ResolveTarget] returns an error,
    [main] writes it and a line feed to the standard error and exits with
    status 1.  So an exit has written to one of the two streams only, and
    to the standard output only with status 0 and the path of a
    directory. *)
Theorem main_outcomes (fuel : nat) (os_Args : list string)
  (os_Getwd : result string) (HOME : string) :
  (List.length os_Args <> 2%nat
   \/ (exists a0 a1, os_Args = [a0; a1] /\ (a1 = "-h" \/ a1 = "--help")) ->
   main L fs fuel os_Args os_Getwd HOME = Exited "" usageText 0)
  /\ (forall a0 a1,
        os_Args = [a0; a1] -> a1 <> "-h" -> a1 <> "--help" ->
        match os_Getwd with
        | Err e =>
          main L fs fuel os_Args os_Getwd HOME
          = Exited ""
              ("error: unable to get current working directory: " ++ e ++ nl)
              1
        | Ok cwd =>
          (forall target,
              ResolveTarget L fs fuel a1 cwd HOME = Done (Ok target) ->
              main L fs fuel os_Args os_Getwd HOME
              = Exited (target ++ nl) "" 0
              /\ statIsDir fs target = true)
          /\ (forall e,
                ResolveTarget L fs fuel a1 cwd HOME = Done (Err e) ->
                main L fs fuel os_Args os_Getwd HOME
                = Exited "" (e ++ nl) 1)
        end)
  /\ forall out err status,
      main L fs fuel os_Args os_Getwd HOME = Exited out err status ->
      (status = 0 /\ err = EmptyString
       /\ exists target, out = target ++ nl /\ statIsDir fs target = true)
      \/ (status = 0 /\ out = EmptyString /\ err = usageText)
      \/ (status = 1 /\ out = EmptyString /\ err <> EmptyString).
Proof.
  split; [|split].
  - intros [Hlen|(a0 & a1 & -> & Hflag)].
    + destruct os_Args as [|a0 [|a1 [|a2 rest]]]; try reflexivity.
      simpl in Hlen. congruence.
    + unfold main. destruct Hflag as [E|E]; rewrite E; reflexivity.
  - intros a0 a1 -> Hh Hhelp. unfold main.
    destruct (String.eqb_spec a1 "-h"); [contradiction|].
    destruct (String.eqb_spec a1 "--help"); [contradiction|].
    cbn [orb]. destruct os_Getwd as [cwd|e]; [|reflexivity].
    split.
    + intros target Hres. rewrite Hres. split; [reflexivity|].
      now apply (ResolveTarget_Ok_statIsDir L fs fuel a1 cwd HOME).
    + intros e Hres. now rewrite Hres.
  - unfold main.
    destruct os_Args as [|a0 [|a1 [|a2 rest]]];
      try (intros out err status [= <- <- <-]; auto).
    destruct ((a1 =? "-h")%string || (a1 =? "--help")%string);
      [intros out err status [= <- <- <-]; auto|].
    destruct os_Getwd as [cwd|e].
    + destruct (ResolveTarget L fs fuel a1 cwd HOME) as [[target|e]| |] eqn:Hres;
        try discriminate.
      * intros out err status [= <- <- <-]. left.
        repeat split. exists target. split; [reflexivity|].
        now apply (ResolveTarget_Ok_statIsDir L fs fuel a1 cwd HOME).
      * intros out err status [= <- <- <-].
        right; right. repeat split. apply append_nl_nonempty.
    + intros out err status [= <- <- <-].
      right; right. repeat split.
      simpl. discriminate.
Qed.

End Command.

Lemma main_outcomes_witness :
  main Fixture.lib Fixture.usersFS 0 ["wslcd"; "-h"] (Ok "/") "/root"
  = Exited "" usageText 0
  /\ main Fixture.lib Fixture.usersFS 0 ["wslcd"; "a"; "b"] (Ok "/") "/root"
     = Exited "" usageText 0
  /\ main Fixture.lib Fixture.usersFS 0 ["wslcd"; "C:\users"] (Ok "/") "/root"
     = Exited ("/mnt/c/Users" ++ nl) "" 0
  /\ statIsDir Fixture.usersFS "/mnt/c/Users" = true
  /\ main Fixture.lib Fixture.usersFS 0 ["wslcd"; "C:\nowhere"] (Ok "/") "/root"
     = Exited ""
         ("error: path does not exist (no case-insensitive match): C:\nowhere"
          ++ nl) 1.
Proof.
  split; [|split; [|split; [|split]]].
  - apply (main_outcomes Fixture.lib Fixture.usersFS 0 ["wslcd"; "-h"]
             (Ok "/") "/root").
    right. exists "wslcd", "-h". split; [reflexivity|now left].
  - apply (main_outcomes Fixture.lib Fixture.usersFS 0 ["wslcd"; "a"; "b"]
             (Ok "/") "/root").
    left. discriminate.
  - apply (proj1 (proj2 (main_outcomes Fixture.lib Fixture.usersFS 0
                           ["wslcd"; "C:\users"] (Ok "/") "/root"))
             "wslcd" "C:\users" eq_refl
             ltac:(discriminate) ltac:(discriminate)).
    reflexivity.
  - apply (proj1 (proj2 (main_outcomes Fixture.lib Fixture.usersFS 0
                           ["wslcd"; "C:\users"] (Ok "/") "/root"))
             "wslcd" "C:\users" eq_refl
             ltac:(discriminate) ltac:(discriminate)).
    reflexivity.
  - apply (proj1 (proj2 (main_outcomes Fixture.lib Fixture.usersFS 0
                           ["wslcd"; "C:\nowhere"] (Ok "/") "/root"))
             "wslcd" "C:\nowhere" eq_refl
             ltac:(discriminate) ltac:(discriminate)).
    reflexivity.
Defined.

(* ----------------------------------------------------------------- *)
(** ** The drive label is one character *)

Lemma byteVal_byteOf (b : Z) : 0 <= b < 256 -> byteVal (byteOf b) = b.
Proof.
  intros H. unfold byteVal, byteOf. rewrite N_ascii_embedding by lia. lia.
Qed.

Lemma acceptFirst_2 (b0 : Z) :
  0xC2 <= b0 <= 0xDF -> acceptFirst b0 = Some (2%nat, 0x80, 0xBF).
Proof.
  intros H. unfold acceptFirst, inRange. decide_tests. reflexivity.
Qed.

Lemma acceptFirst_3 (b0 : Z) :
  0xE0 <= b0 <= 0xEF ->
  acceptFirst b0
  = Some (3%nat, if b0 =? 0xE0 then 0xA0 else 0x80,
          if b0 =? 0xED then 0x9F else 0xBF).
Proof.
  intros H. unfold acceptFirst, inRange. decide_tests; reflexivity.
Qed.

Lemma acceptFirst_4 (b0 : Z) :
  0xF0 <= b0 <= 0xF4 ->
  acceptFirst b0
  = Some (4%nat, if b0 =? 0xF0 then 0x90 else 0x80,
          if b0 =? 0xF4 then 0x8F else 0xBF).
Proof.
  intros H. unfold acceptFirst, inRange. decide_tests; reflexivity.
Qed.

Lemma inRange_intro (lo hi b : Z) : lo <= b <= hi -> inRange lo hi b = true.
Proof. intros H. unfold inRange. apply andb_true_intro. lia. Qed.

(** Decoding undoes encoding: a Unicode scalar value comes back as it
    is, and any other value as U+FFFD. *)
Lemma runes_encodeRune (r : rune) :
  runes (encodeRune r)
  = [if (r <? 0) || (0x10FFFF <? r) || inRange 0xD800 0xDFFF r
     then RuneError else r].
Proof.
  destruct ((r <? 0) || (0x10FFFF <? r) || inRange 0xD800 0xDFFF r) eqn:Hbad.
  { unfold encodeRune. rewrite Hbad. reflexivity. }
  apply orb_false_elim in Hbad. destruct Hbad as [Hbad Hsur].
  apply orb_false_elim in Hbad. destruct Hbad as [Hneg Hbig].
  apply Z.ltb_ge in Hneg, Hbig.
  assert (Hsur' : r < 0xD800 \/ 0xDFFF < r).
  { unfold inRange in Hsur. apply andb_false_iff in Hsur.
    destruct Hsur as [H|H]; [apply Z.leb_gt in H|apply Z.leb_gt in H]; lia. }
  clear Hsur.
  destruct (Z.le_gt_cases r 0x7F) as [H1|H1].
  { rewrite encode_1 by lia. cbn [runes]. rewrite byteVal_byteOf by lia.
    destruct (Z.ltb_spec r 0x80); [reflexivity|lia]. }
  destruct (Z.le_gt_cases r 0x7FF) as [H2|H2].
  { set (b0 := 192 + r / 64). set (b1 := 128 + r mod 64).
    assert (Hb0 : 0xC2 <= b0 <= 0xDF) by (subst b0; Z.div_mod_to_equations; lia).
    assert (Hb1 : 0x80 <= b1 <= 0xBF) by (subst b1; Z.div_mod_to_equations; lia).
    assert (Hr : r = (b0 mod 32) * 64 + b1 mod 64)
      by (subst b0 b1; Z.div_mod_to_equations; lia).
    rewrite Hr at 1. rewrite encode_2 by assumption.
    cbn [runes]. rewrite !byteVal_byteOf by lia.
    destruct (Z.ltb_spec b0 0x80); [lia|].
    rewrite acceptFirst_2 by assumption.
    rewrite (inRange_intro 0x80 0xBF b1) by assumption.
    cbn [negb Nat.leb]. now rewrite decode2_arith, <- Hr. }
  destruct (Z.le_gt_cases r 0xFFFF) as [H3|H3].
  { set (b0 := 224 + r / 4096). set (b1 := 128 + (r / 64) mod 64).
    set (b2 := 128 + r mod 64).
    assert (Hb0 : 0xE0 <= b0 <= 0xEF) by (subst b0; Z.div_mod_to_equations; lia).
    assert (Hb1 : 0x80 <= b1 <= 0xBF) by (subst b1; Z.div_mod_to_equations; lia).
    assert (Hb2 : 0x80 <= b2 <= 0xBF) by (subst b2; Z.div_mod_to_equations; lia).
    assert (HE0 : b0 = 0xE0 -> 0xA0 <= b1)
      by (subst b0 b1; Z.div_mod_to_equations; lia).
    assert (HED : b0 = 0xED -> b1 <= 0x9F)
      by (subst b0 b1; Z.div_mod_to_equations; lia).
    assert (Hr : r = (b0 mod 16) * 4096 + (b1 mod 64) * 64 + b2 mod 64)
      by (subst b0 b1 b2; Z.div_mod_to_equations; lia).
    rewrite Hr at 1. rewrite encode_3 by assumption.
    cbn [runes]. rewrite !byteVal_byteOf by lia.
    destruct (Z.ltb_spec b0 0x80); [lia|].
    rewrite acceptFirst_3 by assumption.
    rewrite inRange_intro
      by (destruct (Z.eqb_spec b0 0xE0), (Z.eqb_spec b0 0xED); lia).
    unfold isCont. rewrite (inRange_intro 0x80 0xBF b2) by assumption.
    cbn [negb Nat.leb]. now rewrite decode3_arith, <- Hr. }
  set (b0 := 240 + r / 262144). set (b1 := 128 + (r / 4096) mod 64).
  set (b2 := 128 + (r / 64) mod 64). set (b3 := 128 + r mod 64).
  assert (Hb0 : 0xF0 <= b0 <= 0xF4) by (subst b0; Z.div_mod_to_equations; lia).
  assert (Hb1 : 0x80 <= b1 <= 0xBF) by (subst b1; Z.div_mod_to_equations; lia).
  assert (Hb2 : 0x80 <= b2 <= 0xBF) by (subst b2; Z.div_mod_to_equations; lia).
  assert (Hb3 : 0x80 <= b3 <= 0xBF) by (subst b3; Z.div_mod_to_equations; lia).
  assert (HF0 : b0 = 0xF0 -> 0x90 <= b1)
    by (subst b0 b1; Z.div_mod_to_equations; lia).
  assert (HF4 : b0 = 0xF4 -> b1 <= 0x8F)
    by (subst b0 b1; Z.div_mod_to_equations; lia).
  assert (Hr : r = (b0 mod 8) * 262144 + (b1 mod 64) * 4096 + (b2 mod 64) * 64
                   + b3 mod 64)
    by (subst b0 b1 b2 b3; Z.div_mod_to_equations; lia).
  rewrite Hr at 1. rewrite encode_4 by assumption.
  cbn [runes]. rewrite !byteVal_byteOf by lia.
  destruct (Z.ltb_spec b0 0x80); [lia|].
  rewrite acceptFirst_4 by assumption.
  rewrite inRange_intro
    by (destruct (Z.eqb_spec b0 0xF0), (Z.eqb_spec b0 0xF4); lia).
  unfold isCont. rewrite (inRange_intro 0x80 0xBF b2) by assumption.
  rewrite (inRange_intro 0x80 0xBF b3) by assumption.
  cbn [negb Nat.leb]. now rewrite decode4_arith, <- Hr.
Qed.

Section DriveLabel.

Context (L : GoLib) (fs : FileSystem).

(** X20.  The label [string(drive)] that [resolveWindowsPath] and
    [resolveWindowsPathCollapsed] look for under [/mnt] decodes to one
    character, the rune [drive] itself when it is a Unicode scalar value;
    and every name the Mount Root Locator returns for it is one character
    long. *)
Theorem drive_label_one_character (dir : string) (drive : rune) (m : string) :
  pickCaseInsensitiveEntry L fs dir (encodeRune drive) = Ok m ->
  runeLen (encodeRune drive) = 1
  /\ (0 <= drive <= 0x10FFFF -> ~ 0xD800 <= drive <= 0xDFFF ->
      runes (encodeRune drive) = [drive])
  /\ runeLen m = 1.
Proof.
  intros Hpick. unfold runeLen. split; [|split].
  - now rewrite runes_encodeRune.
  - intros Hrange Hsur. rewrite runes_encodeRune.
    replace ((drive <? 0) || (0x10FFFF <? drive) || inRange 0xD800 0xDFFF drive)
      with false; [reflexivity|].
    symmetry. unfold inRange.
    destruct (Z.ltb_spec drive 0), (Z.ltb_spec 0x10FFFF drive),
      (Z.leb_spec 0xD800 drive), (Z.leb_spec drive 0xDFFF); simpl; try lia;
      reflexivity.
  - revert Hpick. unfold pickCaseInsensitiveEntry.
    destruct (os_ReadDir fs dir) as [ents|e]; [|discriminate].
    rewrite pickMatches_filter.
    remember (map (fun e => {| pairName := Name e;
                               pairScore := caseScore (encodeRune drive) (Name e) |})
                  (filter (fun e => strings_EqualFold L (Name e) (encodeRune drive))
                          ents)) as matches eqn:Hm.
    destruct matches as [|m0 ms].
    + cbn [List.length Nat.eqb].
      destruct (os_Stat fs _) as [st|e]; [|discriminate].
      destruct (fiIsDir st); [|discriminate].
      intros H; apply Ok_inj in H; subst m.
      unfold strings_ToLower. rewrite runes_encodeRune.
      cbn [map String.concat]. now rewrite runes_encodeRune.
    + cbn [List.length Nat.eqb].
      destruct (sort_SliceStable_first pairLess pairLess_asym pairLess_negtrans
                  {| pairName := ""; pairScore := 0 |} (m0 :: ms))
        as [Hin _]; [discriminate|].
      set (h := hd _ _) in *. intros H; apply Ok_inj in H; subst m.
      rewrite Hm in Hin. apply in_map_iff in Hin.
      destruct Hin as (e & <- & Hin). apply filter_In in Hin.
      destruct Hin as [_ Hf]. cbn [pairName].
      apply (foldEq_length L) in Hf. rewrite Hf, runes_encodeRune. reflexivity.
Qed.

End DriveLabel.

Lemma drive_label_one_character_witness :
  runeLen (encodeRune 99) = 1 /\ runeLen "c" = 1.
Proof.
  destruct (drive_label_one_character Fixture.lib Fixture.usersFS "/mnt" 99 "c"
              eq_refl) as (H1 & _ & H2).
  split; [exact H1|exact H2].
Defined.

Lemma caseScore_symmetric_bounded_witness :
  firstn (List.length (runes "ab")) (runes "abc") = runes "ab".
Proof.
  apply (proj1 (proj2 (proj2 (caseScore_symmetric_bounded "ab" "abc")))).
  reflexivity.
Defined.

